(** * arkservers: the single-flight URI cache, the server directory and the
      server resolver of [arkservers.js], embedded and verified.

    The development follows the layout of the module:
    - [fetchUri] and the Gamedig query are the two capabilities of the
      outside world; they are answered by an oracle;
    - [cachedUri] / [cacher] is a memoised closure over a two-field state
      object, driven by the event loop ([Get] calls and settlements of the
      fetches it dispatched);
    - [getServerPromises], [getServerList] and [getServerInfo] are async
      functions: they are written in a monad that threads the log of
      effects issued so far and stops at the first rejection. *)

From Stdlib Require Import ZArith List Bool Lia String Ascii.
From stdpp Require Import base gmap strings list.

Open Scope string_scope.
Open Scope list_scope.
Open Scope stdpp_scope.
Open Scope nat_scope.

(** ** Values shared by all components *)

(** What a rejected promise carries. [TransportError] is what [http.get]
    and Gamedig report; [TypeError] is raised by the language itself. *)
Inductive JsError : Type :=
| TransportError (msg : string)
| TypeError (msg : string).

Definition error_text (e : JsError) : string :=
  match e with
  | TransportError m => "Error: " +:+ m
  | TypeError m => "TypeError: " +:+ m
  end.

(** The fate of a promise once it settles. *)
Inductive outcome (A : Type) : Type :=
| Resolved (a : A)
| Rejected (e : JsError).
Arguments Resolved {A} a.
Arguments Rejected {A} e.

(** The constants of the [arkservers] object. *)
Definition ARK_GAME_TYPE : string := "arkse".
Definition BASE_URI : string := "http://arkdedicated.com".
Definition VERSION_URI : string := "/version".
Definition STATUS_URI : string := "/officialserverstatus.ini".
Definition NEWS_URI : string := "/news.ini".
Definition SERVER_LIST_URI : string := "/officialservers.ini".
Definition PORT_LIST : list Z := [27015; 27017; 27019; 27021]%Z.
Definition MAX_SERVER_ATTEMPTS : Z := 3.
Definition QUERY_SOCKET_TIMEOUT : Z := 1500.

(** ** The URI cache: [cachedUri] and [cacher] *)

(** [_.memoize] keys the closures by [JSON.stringify(args)]; on a pair of
    strings that encoding is injective, so the pair itself is the key. *)
Definition Key : Type := string * string.

(** The [state] object captured by one [cacher] closure. *)
Record CacheState : Type := mkCacheState {
  cachedValue : option string;
  inProgress : bool
}.

(** The part of the running program the cache lives in: the memoize table
    with the state object of every closure made so far, the [fetchUri]
    promises that were dispatched and have not settled yet, every dispatch
    ever made (in order), and the lines written by [console.log]. *)
Record Runtime : Type := mkRuntime {
  memo : gmap Key CacheState;
  inflight : list Key;
  dispatched : list Key;
  console : list string
}.

Definition boot : Runtime :=
  {| memo := ∅; inflight := []; dispatched := []; console := [] |}.

(** The state object [makeCacher] starts from. *)
Definition makeCacher : CacheState :=
  {| cachedValue := None; inProgress := false |}.

(** [cachedUri(baseUri, apiUri)]: the memoised closure, made on first use. *)
Definition cachedUri (k : Key) (rt : Runtime) : CacheState * Runtime :=
  match memo rt !! k with
  | Some st => (st, rt)
  | None =>
      (makeCacher,
       {| memo := <[k := makeCacher]> (memo rt); inflight := inflight rt;
          dispatched := dispatched rt; console := console rt |})
  end.

(** The state object of key [k], as a later call of [cachedUri] finds it. *)
Definition state_of (k : Key) (rt : Runtime) : CacheState :=
  default makeCacher (memo rt !! k).

(** [cacher()]: one call of the closure of key [k]. *)
Definition cacher (k : Key) (rt : Runtime) : option string * Runtime :=
  let '(st, rt0) := cachedUri k rt in
  let rt1 :=
    match cachedValue st with
    | None =>
        if negb (inProgress st) then
          {| memo := <[k := {| cachedValue := cachedValue st;
                               inProgress := true |}]> (memo rt0);
             inflight := inflight rt0 ++ [k];
             dispatched := dispatched rt0 ++ [k];
             console := console rt0 |}
        else rt0
    | Some _ => rt0
    end in
  (cachedValue (state_of k rt1), rt1).

(** Removes the first occurrence of [k]: one pending promise settles. *)
Fixpoint remove_first (k : Key) (l : list Key) : list Key :=
  match l with
  | [] => []
  | x :: l' => if decide (k = x) then l' else x :: remove_first k l'
  end.

(** The [.then] / [.catch] callbacks attached to the fetch of key [k],
    run when that fetch settles with [r]. *)
Definition on_settled (k : Key) (r : outcome string) (rt : Runtime) : Runtime :=
  let st := state_of k rt in
  match r with
  | Resolved result =>
      {| memo := <[k := {| cachedValue := Some result;
                           inProgress := false |}]> (memo rt);
         inflight := remove_first k (inflight rt);
         dispatched := dispatched rt;
         console := console rt |}
  | Rejected reason =>
      {| memo := <[k := {| cachedValue := cachedValue st;
                           inProgress := false |}]> (memo rt);
         inflight := remove_first k (inflight rt);
         dispatched := dispatched rt;
         console := console rt ++
           ["error fetching " +:+ (k.1 +:+ k.2) +:+ ": " +:+ error_text reason
              +:+ "; will retry on next request"] |}
  end.

(** What the event loop can do to the cache: a caller invokes the getter of
    a key, or a dispatched fetch settles. *)
Inductive Event : Type :=
| Get (k : Key)
| Settle (k : Key) (r : outcome string).

(** One turn of the event loop. A settlement is possible only for a fetch
    that is in flight. The result carries what a [Get] returned. *)
Definition step (ev : Event) (rt : Runtime)
  : option (list (Key * option string) * Runtime) :=
  match ev with
  | Get k => let '(v, rt') := cacher k rt in Some ([(k, v)], rt')
  | Settle k r =>
      if decide (k ∈ inflight rt) then Some ([], on_settled k r rt) else None
  end.

(** A sequence of turns, with the values the getters returned, in order. *)
Fixpoint run (evs : list Event) (rt : Runtime)
  : option (list (Key * option string) * Runtime) :=
  match evs with
  | [] => Some ([], rt)
  | ev :: evs' =>
      match step ev rt with
      | Some (o1, rt1) =>
          match run evs' rt1 with
          | Some (o2, rt2) => Some (o1 ++ o2, rt2)
          | None => None
          end
      | None => None
      end
  end.

(** The states the program can be in: those reached from [boot]. *)
Definition reachable (rt : Runtime) : Prop :=
  ∃ evs obs, run evs boot = Some (obs, rt).

(** Number of entries for [k] in a list of keys. *)
Fixpoint count_key (k : Key) (l : list Key) : nat :=
  match l with
  | [] => 0
  | x :: l' => (if decide (k = x) then 1 else 0) + count_key k l'
  end.

(** Number of [Get k] calls in a sequence of turns. *)
Fixpoint gets_of (k : Key) (evs : list Event) : nat :=
  match evs with
  | [] => 0
  | Get k' :: evs' => (if decide (k = k') then 1 else 0) + gets_of k evs'
  | Settle _ _ :: evs' => gets_of k evs'
  end.

(** No fetch of [k] settles during [evs]. *)
Fixpoint unsettled (k : Key) (evs : list Event) : bool :=
  match evs with
  | [] => true
  | Get _ :: evs' => unsettled k evs'
  | Settle k' _ :: evs' => negb (bool_decide (k = k')) && unsettled k evs'
  end.

(** The getters of the three known endpoints. *)
Definition getCachedVersion : Runtime → option string * Runtime :=
  cacher (BASE_URI, VERSION_URI).
Definition getCachedStatus : Runtime → option string * Runtime :=
  cacher (BASE_URI, STATUS_URI).
Definition getCachedNews : Runtime → option string * Runtime :=
  cacher (BASE_URI, NEWS_URI).

(** The three getters are called once when the module is loaded, to prime
    the caches. *)
Definition primed : option (list (Key * option string) * Runtime) :=
  run [Get (BASE_URI, VERSION_URI); Get (BASE_URI, STATUS_URI);
       Get (BASE_URI, NEWS_URI)] boot.

(** ** Strings: the two [split] calls of the server-list parser *)

(** Strings are sequences of 8-bit code units. The members of the class
    [\s] below 256 are TAB, LF, VT, FF, CR, space and the no-break space. *)
Definition is_space (c : ascii) : bool :=
  let n := nat_of_ascii c in
  ((9 <=? n)%nat && (n <=? 13)%nat) || (n =? 32)%nat || (n =? 160)%nat.

Definition LF : ascii := ascii_of_nat 10.
Definition CR : ascii := ascii_of_nat 13.

(** [s.split(/\r?\n/)]: a line ends at LF or at CR LF; a CR that is not
    followed by LF stays in its line. The result is never empty. *)
Fixpoint split_lines (s : string) : list string :=
  match s with
  | EmptyString => [EmptyString]
  | String c s' =>
      if Ascii.eqb c LF then EmptyString :: split_lines s'
      else
        match s' with
        | String c' s'' =>
            if Ascii.eqb c CR && Ascii.eqb c' LF
            then EmptyString :: split_lines s''
            else match split_lines s' with
                 | l :: ls => String c l :: ls
                 | [] => [String c EmptyString]
                 end
        | EmptyString => [String c EmptyString]
        end
  end.

(** [line.split(/\s+/)[0]]: what precedes the first white space. *)
Fixpoint first_token (line : string) : string :=
  match line with
  | EmptyString => EmptyString
  | String c line' =>
      if is_space c then EmptyString else String c (first_token line')
  end.

(** [s.split(sep)] cut after its first piece: the text before the first
    occurrence of [sep] and the text after it, when [sep] occurs. *)
Fixpoint split_once (sep s : string) : option (string * string) :=
  if String.prefix sep s
  then Some (EmptyString, String.substring (String.length sep)
                            (String.length s - String.length sep) s)
  else match s with
       | EmptyString => None
       | String c s' =>
           match split_once sep s' with
           | Some (a, b) => Some (String c a, b)
           | None => None
           end
       end.

(** ** Records: what Gamedig answers and what the module hands out *)

(** One entry of [players] in a Gamedig answer. *)
Record GdPlayer : Type := mkGdPlayer {
  gp_name : string;
  gp_time : Z
}.

(** A [GamedigResult], with the fields the typedef lists. The [raw] object
    is kept whole inside [gamedigQueryResult] and is not opened here. *)
Record GamedigResult : Type := mkGamedigResult {
  gd_name : string;
  gd_map : string;
  gd_maxplayers : Z;
  gd_players : list (option GdPlayer)
}.

Record ArkPlayer : Type := mkArkPlayer {
  playerName : option string;
  steamName : string;
  steamId : option string;
  elapsedTime : Z
}.

(** An [ArkServerInfo]. The fields [version], [dayNumber] and [mode] are
    computed from [gamedigQueryResult] by a regular-expression replace and
    by [parseInt]; nothing below reads them and they are left out. *)
Record ArkServerInfo : Type := mkArkServerInfo {
  gamedigQueryResult : GamedigResult;
  name : option string;
  players : list ArkPlayer;
  maxPlayers : Z;
  map : string
}.

(** JavaScript's conversion to a boolean, for the types of the hints. *)
Class ToBoolean (A : Type) : Type := to_boolean : A → bool.
#[global] Instance string_to_boolean : ToBoolean string :=
  fun s => negb (String.eqb s EmptyString).
#[global] Instance Z_to_boolean : ToBoolean Z :=
  fun z => negb (Z.eqb z 0).
#[global] Instance nullable_to_boolean {A} `{ToBoolean A} : ToBoolean (option A) :=
  fun o => match o with Some a => to_boolean a | None => false end.

Definition ArkPlayer_new (p : GdPlayer) : ArkPlayer :=
  {| playerName := None; steamName := gp_name p; steamId := None;
     elapsedTime := gp_time p |}.

(** [(gdResult.players || []).filter(p => !!p && !!p.name)]. *)
Fixpoint named_players (l : list (option GdPlayer)) : list GdPlayer :=
  match l with
  | [] => []
  | Some p :: l' =>
      if to_boolean (gp_name p) then p :: named_players l' else named_players l'
  | None :: l' => named_players l'
  end.

(** [new ArkServerInfo(gdResult)]. A non-empty name is cut at [' - '] into
    the server name and the version; when there is no [' - '] the version
    is [undefined] and calling [replace] on it throws. *)
Definition ArkServerInfo_new (gdResult : GamedigResult) : outcome ArkServerInfo :=
  let rest (n : option string) :=
    {| gamedigQueryResult := gdResult; name := n;
       players := List.map ArkPlayer_new (named_players (gd_players gdResult));
       maxPlayers := gd_maxplayers gdResult; map := gd_map gdResult |} in
  if to_boolean (gd_name gdResult) then
    match split_once " - " (gd_name gdResult) with
    | Some (gdName, _) => Resolved (rest (Some gdName))
    | None => Rejected (TypeError "Cannot read properties of undefined (reading 'replace')")
    end
  else Resolved (rest None).

(** ** The outside world and the async monad *)

(** The object [queryForHost] builds for Gamedig. *)
Record Query : Type := mkQuery {
  q_type : string;
  q_host : string;
  q_port : Z;
  q_port_query : Z;
  q_maxAttempts : Z;
  q_socketTimeout : Z
}.

Definition queryForHost (host : string) (port : Z) : Query :=
  {| q_type := ARK_GAME_TYPE; q_host := host; q_port := port;
     q_port_query := port; q_maxAttempts := MAX_SERVER_ATTEMPTS;
     q_socketTimeout := QUERY_SOCKET_TIMEOUT |}.

(** The calls that leave the process. *)
Inductive Effect : Type :=
| HttpGet (uri : string)
| GamedigQuery (q : Query).

(** The outside world answers every call. The answer may depend on when
    the call is made: the first argument is the number of calls issued
    before it. A Gamedig answer comes with the instant at which its promise
    settles. *)
Record World : Type := mkWorld {
  http_get : nat → string → outcome string;
  gamedig : nat → Query → nat * outcome GamedigResult
}.

(** A promise that was handed out: when it settles, and how. *)
Record Promise (A : Type) : Type := mkPromise {
  settles_at : nat;
  fate : outcome A
}.
Arguments mkPromise {A} _ _.
Arguments settles_at {A} _.
Arguments fate {A} _.

(** [p.then(f)], where [f] may throw. *)
Definition promise_then {A B} (p : Promise A) (f : A → outcome B) : Promise B :=
  {| settles_at := settles_at p;
     fate := match fate p with
             | Resolved a => f a
             | Rejected e => Rejected e
             end |}.

(** [p.catch(() => null)]. *)
Definition promise_catch_null {A} (p : Promise A) : Promise (option A) :=
  {| settles_at := settles_at p;
     fate := match fate p with
             | Resolved a => Resolved (Some a)
             | Rejected _ => Resolved None
             end |}.

(** The order in which the promises of a list settle: by instant, earlier
    positions first among equals. *)
Fixpoint insert_by (key : nat → nat) (i : nat) (l : list nat) : list nat :=
  match l with
  | [] => [i]
  | j :: l' => if (key i <=? key j)%nat then i :: l else j :: insert_by key i l'
  end.

Definition completion_order {A} (ps : list (Promise A)) : list nat :=
  foldr (insert_by (fun i => from_option settles_at 0%nat (ps !! i))) []
        (seq 0 (length ps)).

(** [Promise.all]: every settlement, in the order it happens, stores its
    value at the position of its promise; the first rejection rejects the
    whole. *)
Fixpoint settle_all {A} (order : list nat) (ps : list (Promise A))
    (values : list (option A)) : outcome (list (option A)) :=
  match order with
  | [] => Resolved values
  | i :: order' =>
      match ps !! i with
      | Some p =>
          match fate p with
          | Resolved v => settle_all order' ps (<[i := Some v]> values)
          | Rejected e => Rejected e
          end
      | None => settle_all order' ps values
      end
  end.

Definition Promise_all {A} (ps : list (Promise A)) : outcome (list A) :=
  match settle_all (completion_order ps) ps (replicate (length ps) None) with
  | Resolved values => Resolved (omap id values)
  | Rejected e => Rejected e
  end.

(** An async function: from the log of the calls issued so far to its
    result and the log it leaves. A rejection ends the function. *)
Definition Async (A : Type) : Type := list Effect → outcome A * list Effect.

Definition async_ret {A} (a : A) : Async A := fun log => (Resolved a, log).

Definition async_bind {A B} (c : Async A) (k : A → Async B) : Async B :=
  fun log =>
    match c log with
    | (Resolved a, log') => k a log'
    | (Rejected e, log') => (Rejected e, log')
    end.

Notation "'let*' x ':=' c 'in' k" := (async_bind c (fun x => k))
  (at level 10, x name, c at level 100, k at level 200).

(** [await] on a settled outcome; also a [throw] inside an async function. *)
Definition await {A} (o : outcome A) : Async A := fun log => (o, log).

(** [arr.map(f)] where [f] issues calls: left to right. *)
Fixpoint async_map {A B} (f : A → Async B) (l : list A) : Async (list B) :=
  match l with
  | [] => async_ret []
  | x :: l' =>
      let* y := f x in
      let* ys := async_map f l' in
      async_ret (y :: ys)
  end.

(** [arr.reduce(f)] with no initial value. *)
Definition reduce {A} (f : A → A → A) (arr : list A) : outcome A :=
  match arr with
  | [] => Rejected (TypeError "Reduce of empty array with no initial value")
  | x :: arr' => Resolved (fold_left f arr' x)
  end.

(** [resolved.filter(val => val !== null)]. *)
Fixpoint filter_not_null {A} (l : list (option A)) : list A :=
  match l with
  | [] => []
  | Some a :: l' => a :: filter_not_null l'
  | None :: l' => filter_not_null l'
  end.

(** ** The server directory and the resolver *)

Section Directory.
Variable w : World.

(** [fetchUri(baseUri, apiUri)], awaited. *)
Definition fetchUri (baseUri apiUri : string) : Async string :=
  fun log =>
    let fullUri := baseUri +:+ apiUri in
    (http_get w (length log) fullUri, log ++ [HttpGet fullUri]).

(** [gamedigQuery(query)]: the call is issued now, the promise settles
    later. *)
Definition gamedigQuery (query : Query) : Async (Promise GamedigResult) :=
  fun log =>
    let '(t, r) := gamedig w (length log) query in
    (Resolved {| settles_at := t; fate := r |}, log ++ [GamedigQuery query]).

(** The [serverQueries] array of [getServerPromises]. *)
Definition serverQueries (useServerIPs : list string) (ports : option (list Z))
  : outcome (list Query) :=
  reduce (fun acc val => acc ++ val)
    (List.map
       (fun serverIP =>
          List.map (fun port => queryForHost serverIP port)
                   (default PORT_LIST ports))
       useServerIPs).

(** [serverIPs || await (async () => ...)()]: an array, even an empty
    one, is truthy; only null makes the module fetch the list. *)
Definition useServerIPs (serverIPs : option (list string))
  : Async (list string) :=
  match serverIPs with
  | Some ips => async_ret ips
  | None =>
      let* serverList := fetchUri BASE_URI SERVER_LIST_URI in
      async_ret (List.map (fun line => first_token line)
                          (split_lines serverList))
  end.

Definition getServerPromises (serverIPs : option (list string))
    (ports : option (list Z)) : Async (list (Promise ArkServerInfo)) :=
  let* ips := useServerIPs serverIPs in
  let* queries := await (serverQueries ips ports) in
  async_map
    (fun query =>
       let* p := gamedigQuery query in
       async_ret (promise_then p (fun result => ArkServerInfo_new result)))
    queries.

Definition getServerList (serverIPs : option (list string))
    (ports : option (list Z)) : Async (list ArkServerInfo) :=
  let* serverPromises := getServerPromises serverIPs ports in
  let nullablePromises :=
    List.map (fun qpromise => promise_catch_null qpromise) serverPromises in
  let* resolved := await (Promise_all nullablePromises) in
  async_ret (filter_not_null resolved).

(** The second argument of [getServerInfo]; [{}] is [no_options]. *)
Record Options : Type := mkOptions {
  host : option string;
  port : option Z;
  fallback : bool
}.

Definition no_options : Options :=
  {| host := None; port := None; fallback := true |}.

(** [info => info.name === serverName]. *)
Definition name_is (serverName : string) (info : ArkServerInfo) : bool :=
  bool_decide (name info = Some serverName).

(** [hint ? [hint] : null]. *)
Definition hint_list {A} `{ToBoolean A} (hint : option A) : option (list A) :=
  match hint with
  | Some h => if to_boolean h then Some [h] else None
  | None => None
  end.

Definition getServerInfo (serverName : string) (opts : Options)
  : Async (option ArkServerInfo) :=
  let host := host opts in
  let port := port opts in
  let fallback := fallback opts in
  let* resultList :=
    (let* l := getServerList (hint_list host) (hint_list port) in
     async_ret (List.filter (name_is serverName) l)) in
  let* resultList :=
    if (length resultList =? 0)%nat && fallback
       && to_boolean host && to_boolean port
    then
      match host, port with
      | Some h, Some p =>
          let* resultList :=
            (let* l := getServerList (Some [h]) None in
             async_ret (List.filter (name_is serverName) l)) in
          if (length resultList =? 0)%nat
          then
            let* l := getServerList None (Some [p]) in
            async_ret (List.filter (name_is serverName) l)
          else async_ret resultList
      | _, _ => async_ret resultList
      end
    else async_ret resultList in
  let* resultList :=
    if (length resultList =? 0)%nat && fallback
       && (to_boolean host || to_boolean port)
    then
      let* l := getServerList None None in
      async_ret (List.filter (name_is serverName) l)
    else async_ret resultList in
  async_ret (if (0 <? length resultList)%nat then head resultList else None).

(** *** The stages of the resolver, as the specification words them *)

(** The arguments of the [getServerList] call of each stage. *)
Inductive Stage : Type :=
| Hinted (ips : option (list string)) (ports : option (list Z))
| HostOnly (h : string)
| PortOnly (p : Z)
| FullScan.

Definition stage_args (st : Stage) : option (list string) * option (list Z) :=
  match st with
  | Hinted ips ports => (ips, ports)
  | HostOnly h => (Some [h], None)
  | PortOnly p => (None, Some [p])
  | FullScan => (None, None)
  end.

(** The stages that apply to a request, in the order they are tried. *)
Definition stages_of (opts : Options) : list Stage :=
  Hinted (hint_list (host opts)) (hint_list (port opts))
  :: (match host opts, port opts with
      | Some h, Some p =>
          if fallback opts && to_boolean h && to_boolean p
          then [HostOnly h; PortOnly p] else []
      | _, _ => []
      end)
  ++ (if fallback opts && (to_boolean (host opts) || to_boolean (port opts))
      then [FullScan] else []).

(** Tries the stages in order; the first stage with a record of the
    requested name answers with its first such record, and nothing is
    tried after it. *)
Fixpoint first_stage_match (serverName : string) (stages : list Stage)
  : Async (option ArkServerInfo) :=
  match stages with
  | [] => async_ret None
  | st :: stages' =>
      let* l := getServerList (stage_args st).1 (stage_args st).2 in
      match List.filter (name_is serverName) l with
      | r :: _ => async_ret (Some r)
      | [] => first_stage_match serverName stages'
      end
  end.

End Directory.

(** ** Definitions used to state the properties *)

(** A call of [cacher] dispatches a fetch exactly when nothing is cached
    and no fetch is in progress. *)
Definition dispatches (st : CacheState) : bool :=
  match cachedValue st with
  | None => negb (inProgress st)
  | Some _ => false
  end.

(** The invariant of the cache: for every key, the fetches in flight are as
    many as the in-progress flag says (one or none), and a key with a
    cached value has no fetch in progress. *)
Definition cache_inv (rt : Runtime) : Prop :=
  ∀ k, count_key k (inflight rt) = (if inProgress (state_of k rt) then 1 else 0)
       ∧ (cachedValue (state_of k rt) ≠ None → inProgress (state_of k rt) = false).

(** [n] rounds of: call the getter, then the fetch it started fails. *)
Definition failed_rounds (k : Key) (e : JsError) (n : nat) : list Event :=
  concat (replicate n [Get k; Settle k (Rejected e)]).

(** The fate of the promise [getServerPromises] makes for the query [q]
    issued as call number [t]: Gamedig's answer, shaped into a record. *)
Definition record_at (w : World) (t : nat) (q : Query) : outcome ArkServerInfo :=
  match (gamedig w t q).2 with
  | Resolved result => ArkServerInfo_new result
  | Rejected e => Rejected e
  end.

(** The promises made for the targets [T], the first one issued as call
    number [t]. *)
Fixpoint promises_of (w : World) (t : nat) (T : list Query)
  : list (Promise ArkServerInfo) :=
  match T with
  | [] => []
  | q :: T' =>
      {| settles_at := (gamedig w t q).1; fate := record_at w t q |}
      :: promises_of w (S t) T'
  end.

(** The records of the targets of [T] whose query succeeded, in the order
    of [T]. *)
Fixpoint successes (w : World) (t : nat) (T : list Query) : list ArkServerInfo :=
  match T with
  | [] => []
  | q :: T' =>
      match record_at w t q with
      | Resolved r => r :: successes w (S t) T'
      | Rejected _ => successes w (S t) T'
      end
  end.

(** The Cartesian product of the specification: one target per pair, the
    IPs outermost, the ports in list order. *)
Definition buildTargets (ips : list string) (ports : list Z) : list Query :=
  List.flat_map (fun ip => List.map (fun port => queryForHost ip port) ports) ips.

(** Two worlds that give the same answers and differ at most in the
    instants at which the Gamedig promises settle. *)
Definition same_answers (w w' : World) : Prop :=
  (∀ t uri, http_get w t uri = http_get w' t uri)
  ∧ (∀ t q, (gamedig w t q).2 = (gamedig w' t q).2).

(** What a resolver call hands back from the list of one round. *)
Definition first_named (serverName : string) (l : list ArkServerInfo)
  : option ArkServerInfo :=
  head (List.filter (name_is serverName) l).

(** *** Sample worlds *)

Definition SERVER_LIST_FULL_URI : string := BASE_URI +:+ SERVER_LIST_URI.

(** A fleet of two hosts, listed in a file with both kinds of line ends
    and a comment after the second IP. The only server that answers is
    Srv-A, on the second host at the second port. *)
Definition fleet_list : string :=
  "10.0.0.1" +:+ String CR (String LF EmptyString)
  +:+ "10.0.0.2 second".

Definition fleet_answer (q : Query) : outcome GamedigResult :=
  if String.eqb (q_host q) "10.0.0.2" && Z.eqb (q_port q) 27017
  then Resolved {| gd_name := "Srv-A - (v281.110)"; gd_map := "Aberration";
                   gd_maxplayers := 70;
                   gd_players := [Some {| gp_name := "ann"; gp_time := 60 |};
                                  Some {| gp_name := ""; gp_time := 5 |}] |}
  else if String.eqb (q_host q) "10.0.0.1" && Z.eqb (q_port q) 27015
  then Resolved {| gd_name := "Srv-B - (v281.110)"; gd_map := "TheIsland";
                   gd_maxplayers := 70; gd_players := [] |}
  else Rejected (TransportError "UDP Watchdog Timeout").

(** The same fleet seen twice: in [fleet] the later a query is issued the
    sooner it settles, in [fleet_slow] they settle in the order issued. *)
Definition fleet : World :=
  {| http_get := fun _ uri =>
       if String.eqb uri SERVER_LIST_FULL_URI then Resolved fleet_list
       else Rejected (TransportError "ENOTFOUND");
     gamedig := fun t q => (100 - t, fleet_answer q) |}.

Definition fleet_slow : World :=
  {| http_get := fun _ uri =>
       if String.eqb uri SERVER_LIST_FULL_URI then Resolved fleet_list
       else Rejected (TransportError "ENOTFOUND");
     gamedig := fun t q => (100 + t, fleet_answer q) |}.

(** The records of one full round in a world, or none when it rejects. *)
Definition getServerList_names (w : World) : list ArkServerInfo :=
  match (getServerList w None None []).1 with
  | Resolved l => l
  | Rejected _ => []
  end.

(** *** Counting what happened to a key along a sequence of turns *)

(** The turn [ev] is about key [k]: its getter, or a settlement of its
    fetch. *)
Definition about (k : Key) (ev : Event) : bool :=
  match ev with
  | Get k' => bool_decide (k = k')
  | Settle k' _ => bool_decide (k = k')
  end.

(** Fetches of [k] that failed, and that succeeded, during [evs]. *)
Fixpoint failures_of (k : Key) (evs : list Event) : nat :=
  match evs with
  | [] => 0
  | Settle k' (Rejected _) :: evs' =>
      (if decide (k = k') then 1 else 0) + failures_of k evs'
  | _ :: evs' => failures_of k evs'
  end.

Fixpoint successes_of (k : Key) (evs : list Event) : nat :=
  match evs with
  | [] => 0
  | Settle k' (Resolved _) :: evs' =>
      (if decide (k = k') then 1 else 0) + successes_of k evs'
  | _ :: evs' => successes_of k evs'
  end.

(** Fetches of any key that failed during [evs]. *)
Fixpoint rejections (evs : list Event) : nat :=
  match evs with
  | [] => 0
  | Settle _ (Rejected _) :: evs' => S (rejections evs')
  | _ :: evs' => rejections evs'
  end.

(** *** Looking into strings and logs *)

(** Some character of [s] satisfies [p]; how many do. *)
Fixpoint contains_char (p : ascii → bool) (s : string) : bool :=
  match s with
  | EmptyString => false
  | String c s' => p c || contains_char p s'
  end.

Fixpoint count_char (p : ascii → bool) (s : string) : nat :=
  match s with
  | EmptyString => 0
  | String c s' => (if p c then 1 else 0) + count_char p s'
  end.

Definition is_LF (c : ascii) : bool := Ascii.eqb c LF.

(** [sep] occurs somewhere in [s]. *)
Fixpoint occurs (sep s : string) : bool :=
  String.prefix sep s
  || match s with
     | EmptyString => false
     | String _ s' => occurs sep s'
     end.

#[global] Instance Query_eq_dec : EqDecision Query.
Proof. solve_decision. Defined.

(** The calls the directory and the resolver are meant to make: a fetch of
    the server list, or a query of the shape [queryForHost] builds. *)
Definition module_effect (e : Effect) : bool :=
  match e with
  | HttpGet uri => String.eqb uri (BASE_URI +:+ SERVER_LIST_URI)
  | GamedigQuery q => bool_decide (q = queryForHost (q_host q) (q_port q))
  end.

(** Number of fetches in a log. *)
Fixpoint count_fetches (log : list Effect) : nat :=
  match log with
  | [] => 0
  | HttpGet _ :: log' => S (count_fetches log')
  | GamedigQuery _ :: log' => count_fetches log'
  end.

(** A record, or null when the constructor throws. *)
Definition shaped (gd : GamedigResult) : option ArkServerInfo :=
  match ArkServerInfo_new gd with
  | Resolved r => Some r
  | Rejected _ => None
  end.

(** The raw answers of the targets of [T] that Gamedig answered, in the
    order of [T]. *)
Fixpoint raw_successes (w : World) (t : nat) (T : list Query)
  : list GamedigResult :=
  match T with
  | [] => []
  | q :: T' =>
      match (gamedig w t q).2 with
      | Resolved gd => gd :: raw_successes w (S t) T'
      | Rejected _ => raw_successes w (S t) T'
      end
  end.

(** ** The earlier version of the directory (second listing of
    [arkservers.js]): no arguments, raw Gamedig answers *)

Section Legacy.
Variable w : World.

(** [getServerPromises()]: always fetches the list; the query objects are
    written in place. *)
Definition legacy_getServerPromises : Async (list (Promise GamedigResult)) :=
  let* serverList := fetchUri w BASE_URI SERVER_LIST_URI in
  let serverIPs :=
    List.map (fun line => first_token line) (split_lines serverList) in
  let* queries :=
    await (reduce (fun acc val => acc ++ val)
             (List.map
                (fun serverIP =>
                   List.map
                     (fun port =>
                        {| q_type := ARK_GAME_TYPE; q_host := serverIP;
                           q_port := port; q_port_query := port;
                           q_maxAttempts := MAX_SERVER_ATTEMPTS;
                           q_socketTimeout := QUERY_SOCKET_TIMEOUT |})
                     PORT_LIST)
                serverIPs)) in
  async_map (fun query => gamedigQuery w query) queries.

(** [getServerList()]: [co] resolves the yielded array of promises as
    [Promise.all] does. *)
Definition legacy_getServerList : Async (list GamedigResult) :=
  let* serverPromises := legacy_getServerPromises in
  let nullablePromises :=
    List.map (fun qpromise => promise_catch_null qpromise) serverPromises in
  let* resolved := await (Promise_all nullablePromises) in
  async_ret (filter_not_null resolved).

End Legacy.

(** ** The version field of the record constructor *)

(** The longest start of [s] without a closing brace, and the rest. *)
Fixpoint until_brace (s : string) : string * string :=
  match s with
  | EmptyString => (EmptyString, EmptyString)
  | String c s' =>
      if Ascii.eqb c "}"%char then (EmptyString, s)
      else let '(run, rest) := until_brace s' in (String c run, rest)
  end.

(** [s] cut at its last closing parenthesis. *)
Fixpoint last_close (s : string) : option (string * string) :=
  match s with
  | EmptyString => None
  | String c s' =>
      match last_close s' with
      | Some (a, b) => Some (String c a, b)
      | None => if Ascii.eqb c ")"%char then Some (EmptyString, s') else None
      end
  end.

(** A match of [/\(v([^}]+)\)/] at the start of [s]: the group and what
    follows the match. The group is greedy: it ends at the last closing
    parenthesis before the first closing brace, and is not empty. *)
Definition version_match (s : string) : option (string * string) :=
  match s with
  | String c1 (String c2 s') =>
      if Ascii.eqb c1 "("%char && Ascii.eqb c2 "v"%char then
        let '(run, rest) := until_brace s' in
        match last_close run with
        | Some (String g group, after) => Some (String g group, after +:+ rest)
        | _ => None
        end
      else None
  | _ => None
  end.

(** [version.replace(/\(v([^}]+)\)/, (match, p1) => p1)]: the leftmost
    match is replaced by its group. *)
Fixpoint strip_version (s : string) : string :=
  match version_match s with
  | Some (group, after) => group +:+ after
  | None =>
      match s with
      | EmptyString => EmptyString
      | String c s' => String c (strip_version s')
      end
  end.

(** [const [gdName, gdVersion] = s.split(' - ', 2)]: the first two
    pieces; the second is [undefined] when [' - '] does not occur. *)
Definition name_and_version (s : string) : string * option string :=
  match split_once " - " s with
  | None => (s, None)
  | Some (a, b) =>
      (a, Some (match split_once " - " b with
                | Some (v, _) => v
                | None => b
                end))
  end.

(** The [version] field the constructor computes, when it does not throw:
    null for an empty raw name, else the second piece of the raw name with
    the leftmost [(v...)] replaced by what is inside. *)
Definition version_of (gdResult : GamedigResult) : option string :=
  if to_boolean (gd_name gdResult) then
    match name_and_version (gd_name gdResult) with
    | (_, Some gdVersion) => Some (strip_version gdVersion)
    | (_, None) => None
    end
  else None.

Definition is_blank (c : ascii) : bool := Ascii.eqb c " "%char.
Definition is_brace (c : ascii) : bool := Ascii.eqb c "}"%char.

(** *** Tactics *)

(** Case analysis on the next [getServerList] round of the goal: it
    rejects, or it resolves and the records of the requested name are
    none or some. *)
Ltac round :=
  match goal with
  | |- context [getServerList ?w ?a ?b ?l] =>
      let r := fresh "r" in
      let lg := fresh "log" in
      let E := fresh "Hround" in
      destruct (getServerList w a b l) as [[r|?] lg] eqn:E; simpl;
      [ let fl := fresh "fl" in
        try (destruct (List.filter _ r) as [|? fl] eqn:?; simpl) | ]
  end.

(** ** The cache: lemmas *)

Lemma count_key_app k l1 l2 :
  count_key k (l1 ++ l2) = count_key k l1 + count_key k l2.
Proof. induction l1 as [|x l1 IH]; simpl; [done | rewrite IH; lia]. Qed.

Lemma count_key_remove_first k k' l :
  count_key k (remove_first k' l)
  = if decide (k = k') then pred (count_key k l) else count_key k l.
Proof.
  induction l as [|x l IH]; simpl.
  - by destruct (decide (k = k')).
  - destruct (decide (k' = x)) as [->|Hne].
    + destruct (decide (k = x)); simpl; done.
    + simpl. rewrite IH. destruct (decide (k = k')) as [->|]; [|done].
      destruct (decide (k' = x)); [done | simpl; done].
Qed.

Lemma count_key_elem_of k l : k ∈ l → 1 ≤ count_key k l.
Proof.
  induction 1 as [x l | x y l _ IH]; simpl.
  - destruct (decide (x = x)); [lia | done].
  - lia.
Qed.

Lemma count_key_pos_elem_of k l : 1 ≤ count_key k l → k ∈ l.
Proof.
  induction l as [|x l IH]; simpl; [lia |].
  destruct (decide (k = x)) as [->|]; [left | right; apply IH; lia].
Qed.

(** What one call of [cacher] does, read through [state_of]. *)
Lemma cacher_spec k rt :
  let st := state_of k rt in
  let rt' := (cacher k rt).2 in
  (cacher k rt).1 = cachedValue st
  ∧ state_of k rt'
    = {| cachedValue := cachedValue st;
         inProgress := inProgress st || dispatches st |}
  ∧ (∀ k', k' ≠ k → state_of k' rt' = state_of k' rt)
  ∧ inflight rt' = inflight rt ++ (if dispatches st then [k] else [])
  ∧ dispatched rt' = dispatched rt ++ (if dispatches st then [k] else [])
  ∧ console rt' = console rt.
Proof.
  unfold cacher, cachedUri, state_of, dispatches.
  destruct (memo rt !! k) as [[cv ip]|] eqn:Hk; simpl.
  - destruct cv as [v|]; simpl.
    + rewrite Hk. simpl. rewrite orb_false_r, !app_nil_r. done.
    + destruct ip; simpl.
      * rewrite Hk. simpl. rewrite !app_nil_r. done.
      * rewrite lookup_insert_eq. simpl. repeat split; try done.
        intros k' Hne. by rewrite lookup_insert_ne.
  - rewrite !lookup_insert_eq. simpl. repeat split; try done.
    intros k' Hne. by rewrite !lookup_insert_ne.
Qed.

(** What the callbacks of a settled fetch do, read through [state_of]. *)
Lemma on_settled_spec k r rt :
  let st := state_of k rt in
  let rt' := on_settled k r rt in
  state_of k rt'
  = {| cachedValue := match r with
                      | Resolved v => Some v
                      | Rejected _ => cachedValue st
                      end;
       inProgress := false |}
  ∧ (∀ k', k' ≠ k → state_of k' rt' = state_of k' rt)
  ∧ inflight rt' = remove_first k (inflight rt)
  ∧ dispatched rt' = dispatched rt.
Proof.
  unfold on_settled, state_of. destruct r; simpl;
    rewrite lookup_insert_eq; simpl; repeat split; try done;
    intros k' Hne; by rewrite lookup_insert_ne.
Qed.

Lemma cache_inv_boot : cache_inv boot.
Proof. intros k. unfold state_of. simpl. rewrite lookup_empty. done. Qed.

Lemma cache_inv_cacher k rt : cache_inv rt → cache_inv (cacher k rt).2.
Proof.
  intros Hinv k'.
  destruct (cacher_spec k rt) as (_ & Hst & Hoth & Hfl & _ & _).
  destruct (Hinv k') as [Hc Hv].
  rewrite Hfl, count_key_app.
  destruct (decide (k' = k)) as [->|Hne].
  - rewrite Hst. simpl. unfold dispatches in *.
    destruct (cachedValue (state_of k rt)) as [v|] eqn:Hcv.
    + rewrite Hv by done. simpl. rewrite Hv in Hc by done. split; [lia | done].
    + destruct (inProgress (state_of k rt)); simpl.
      * split; [lia | done].
      * destruct (decide (k = k)); [|done]. split; [lia | done].
  - rewrite (Hoth k' Hne).
    assert (count_key k' (if dispatches (state_of k rt) then [k] else []) = 0)
      as ->.
    { destruct (dispatches (state_of k rt)); simpl; [|done].
      destruct (decide (k' = k)); [done | lia]. }
    split; [lia | done].
Qed.

Lemma cache_inv_on_settled k r rt :
  cache_inv rt → k ∈ inflight rt → cache_inv (on_settled k r rt).
Proof.
  intros Hinv Hin k'.
  destruct (on_settled_spec k r rt) as (Hst & Hoth & Hfl & _).
  destruct (Hinv k') as [Hc Hv].
  rewrite Hfl, count_key_remove_first.
  destruct (decide (k' = k)) as [->|Hne].
  - rewrite Hst. simpl. apply count_key_elem_of in Hin.
    destruct (inProgress (state_of k rt)); split; try done; lia.
  - rewrite (Hoth k' Hne). done.
Qed.

Lemma cache_inv_step ev rt obs rt' :
  cache_inv rt → step ev rt = Some (obs, rt') → cache_inv rt'.
Proof.
  intros Hinv. destruct ev as [k | k r]; simpl.
  - destruct (cacher k rt) as [v rt1] eqn:Hc. intros [= <- <-].
    change rt1 with (v, rt1).2. rewrite <- Hc. by apply cache_inv_cacher.
  - destruct (decide (k ∈ inflight rt)); [|done].
    intros [= <- <-]. by apply cache_inv_on_settled.
Qed.

Lemma cache_inv_run evs : ∀ rt obs rt',
  cache_inv rt → run evs rt = Some (obs, rt') → cache_inv rt'.
Proof.
  induction evs as [|ev evs IH]; intros rt obs rt' Hinv; simpl.
  - intros [= <- <-]. done.
  - destruct (step ev rt) as [[o1 rt1]|] eqn:Hs; [|done].
    destruct (run evs rt1) as [[o2 rt2]|] eqn:Hr; [|done].
    intros [= <- <-]. eapply IH; [|done]. by eapply cache_inv_step.
Qed.

Lemma cache_inv_reachable rt : reachable rt → cache_inv rt.
Proof. intros (evs & obs & Hr). eapply cache_inv_run; [apply cache_inv_boot | done]. Qed.

Lemma run_app evs1 : ∀ evs2 rt o1 rt1 o2 rt2,
  run evs1 rt = Some (o1, rt1) → run evs2 rt1 = Some (o2, rt2) →
  run (evs1 ++ evs2) rt = Some (o1 ++ o2, rt2).
Proof.
  induction evs1 as [|ev evs1 IH]; intros evs2 rt o1 rt1 o2 rt2; simpl.
  - intros [= <- <-] H2. done.
  - destruct (step ev rt) as [[oa rta]|]; [|done].
    destruct (run evs1 rta) as [[ob rtb]|] eqn:Hb; [|done].
    intros [= <- <-] H2. rewrite (IH _ _ _ _ _ _ Hb H2).
    by rewrite app_assoc.
Qed.

Lemma reachable_run evs rt obs rt' :
  reachable rt → run evs rt = Some (obs, rt') → reachable rt'.
Proof.
  intros (evs0 & obs0 & H0) Hr. exists (evs0 ++ evs), (obs0 ++ obs).
  by eapply run_app.
Qed.

(** While nothing is cached for [k] and no fetch of [k] settles, every
    getter of [k] returns null and at most one fetch of [k] is started: one
    exactly when none was in progress and the getter was called. *)
Lemma run_unsettled k evs : ∀ rt obs rt',
  run evs rt = Some (obs, rt') →
  unsettled k evs = true →
  cachedValue (state_of k rt) = None →
  cachedValue (state_of k rt') = None
  ∧ (∀ v, (k, v) ∈ obs → v = None)
  ∧ inProgress (state_of k rt')
    = inProgress (state_of k rt) || negb (gets_of k evs =? 0)
  ∧ count_key k (dispatched rt')
    = count_key k (dispatched rt)
      + (if inProgress (state_of k rt) then 0
         else if gets_of k evs =? 0 then 0 else 1).
Proof.
  induction evs as [|ev evs IH]; intros rt obs rt'; simpl.
  - intros [= <- <-] _ Hcv. rewrite orb_false_r. repeat split; try done.
    + intros v Hv. by apply elem_of_nil in Hv.
    + destruct (inProgress (state_of k rt)); lia.
  - destruct (step ev rt) as [[o1 rt1]|] eqn:Hs; [|done].
    destruct (run evs rt1) as [[o2 rt2]|] eqn:Hr; [|done].
    intros [= <- <-] Hq Hcv.
    destruct ev as [k1 | k1 r]; simpl in Hs, Hq.
    + destruct (cacher k1 rt) as [v1 rta] eqn:Hc.
      injection Hs as <- <-.
      destruct (cacher_spec k1 rt) as (Hret & Hst & Hoth & _ & Hdp & _).
      rewrite Hc in Hret, Hst, Hoth, Hdp. simpl in Hret, Hst, Hoth, Hdp.
      destruct (decide (k = k1)) as [<-|Hne].
      * assert (cachedValue (state_of k rta) = None) as Hcv1
          by (by rewrite Hst).
        destruct (IH _ _ _ Hr Hq Hcv1) as (Ha & Hb & Hc' & Hd).
        split; [done|]. split.
        { intros v Hv. apply elem_of_cons in Hv as [Hv | Hv].
          - injection Hv as ->. by rewrite Hret.
          - by apply Hb. }
        rewrite Hc', Hd, Hdp, count_key_app, Hst. simpl.
        unfold dispatches. rewrite Hcv.
        destruct (inProgress (state_of k rt)); simpl.
        -- split; [done | lia].
        -- destruct (decide (k = k)); [|done]. split; [done | lia].
      * assert (state_of k rta = state_of k rt) as Heq by (by apply Hoth).
        assert (cachedValue (state_of k rta) = None) as Hcv1
          by (by rewrite Heq).
        destruct (IH _ _ _ Hr Hq Hcv1) as (Ha & Hb & Hc' & Hd).
        split; [done|]. split.
        { intros v Hv. apply elem_of_cons in Hv as [Hv | Hv].
          - congruence.
          - by apply Hb. }
        rewrite Hc', Hd, Hdp, count_key_app, Heq.
        assert (count_key k (if dispatches (state_of k1 rt) then [k1] else [])
                = 0) as ->.
        { destruct (dispatches (state_of k1 rt)); simpl; [|done].
          destruct (decide (k = k1)); [done | lia]. }
        simpl. split; [done | lia].
    + destruct (decide (k1 ∈ inflight rt)); [|done].
      injection Hs as <- <-.
      apply andb_true_iff in Hq as [Hne Hq].
      apply negb_true_iff, bool_decide_eq_false in Hne.
      destruct (on_settled_spec k1 r rt) as (_ & Hoth & _ & Hdp).
      assert (state_of k (on_settled k1 r rt) = state_of k rt) as Heq
        by (by apply Hoth).
      assert (cachedValue (state_of k (on_settled k1 r rt)) = None) as Hcv1
        by (by rewrite Heq).
      destruct (IH _ _ _ Hr Hq Hcv1) as (Ha & Hb & Hc' & Hd).
      rewrite Hc', Hd, Hdp, Heq. done.
Qed.

(** Once a value is cached for [k] it stays: no fetch of [k] is in flight
    any more, and every getter of [k] returns that value. *)
Lemma run_cached k v evs : ∀ rt obs rt',
  cache_inv rt →
  cachedValue (state_of k rt) = Some v →
  run evs rt = Some (obs, rt') →
  cachedValue (state_of k rt') = Some v
  ∧ (∀ x, (k, x) ∈ obs → x = Some v)
  ∧ count_key k (dispatched rt') = count_key k (dispatched rt).
Proof.
  induction evs as [|ev evs IH]; intros rt obs rt' Hinv Hcv; simpl.
  - intros [= <- <-]. repeat split; try done.
    intros x Hx. by apply elem_of_nil in Hx.
  - destruct (step ev rt) as [[o1 rt1]|] eqn:Hs; [|done].
    destruct (run evs rt1) as [[o2 rt2]|] eqn:Hr; [|done].
    intros [= <- <-].
    pose proof (cache_inv_step _ _ _ _ Hinv Hs) as Hinv1.
    assert (cachedValue (state_of k rt1) = Some v
            ∧ (∀ x, (k, x) ∈ o1 → x = Some v)
            ∧ count_key k (dispatched rt1) = count_key k (dispatched rt))
      as (Hcv1 & Ho1 & Hd1).
    { destruct ev as [k1 | k1 r]; simpl in Hs.
      - destruct (cacher k1 rt) as [v1 rta] eqn:Hc.
        injection Hs as <- <-.
        destruct (cacher_spec k1 rt) as (Hret & Hst & Hoth & _ & Hdp & _).
        rewrite Hc in Hret, Hst, Hoth, Hdp. simpl in Hret, Hst, Hoth, Hdp.
        destruct (decide (k = k1)) as [<-|Hne].
        + rewrite Hst, Hdp, count_key_app. unfold dispatches.
          rewrite Hcv. simpl. repeat split; [| lia].
          intros x Hx. apply list_elem_of_singleton in Hx.
          injection Hx as ->. by rewrite Hret.
        + rewrite (Hoth k Hne), Hdp, count_key_app. repeat split; [done | |].
          * intros x Hx. apply list_elem_of_singleton in Hx. congruence.
          * destruct (dispatches (state_of k1 rt)); simpl; [|lia].
            destruct (decide (k = k1)); [done | lia].
      - destruct (decide (k1 ∈ inflight rt)) as [Hin|]; [|done].
        injection Hs as <- <-.
        destruct (on_settled_spec k1 r rt) as (_ & Hoth & _ & Hdp).
        assert (k ≠ k1) as Hne.
        { intros <-. apply count_key_elem_of in Hin.
          destruct (Hinv k) as [Hc Hv]. rewrite Hv in Hc by congruence. lia. }
        rewrite (Hoth k Hne), Hdp. repeat split; [done|].
        intros x Hx. by apply elem_of_nil in Hx. }
    destruct (IH _ _ _ Hinv1 Hcv1 Hr) as (Ha & Hb & Hc).
    repeat split; [done | | by rewrite Hc].
    intros x Hx. apply elem_of_app in Hx as [Hx | Hx]; auto.
Qed.

(** A key with a fetch in flight has nothing cached and its flag set. *)
Lemma inflight_absent k rt :
  cache_inv rt → k ∈ inflight rt →
  cachedValue (state_of k rt) = None ∧ inProgress (state_of k rt) = true
  ∧ count_key k (inflight rt) = 1.
Proof.
  intros Hinv Hin. destruct (Hinv k) as [Hc Hv].
  apply count_key_elem_of in Hin.
  destruct (inProgress (state_of k rt)) eqn:Hip; [|lia].
  repeat split; [|done].
  destruct (cachedValue (state_of k rt)); [|done].
  by discriminate Hv.
Qed.

(** One failed round from an idle key: the getter returns null, starts one
    fetch, and the failure leaves the key idle again. *)
Lemma failed_round k e rt :
  cache_inv rt →
  cachedValue (state_of k rt) = None → inProgress (state_of k rt) = false →
  ∃ rt', run [Get k; Settle k (Rejected e)] rt = Some ([(k, None)], rt')
         ∧ cache_inv rt'
         ∧ cachedValue (state_of k rt') = None
         ∧ inProgress (state_of k rt') = false
         ∧ dispatched rt' = dispatched rt ++ [k].
Proof.
  intros Hinv Hcv Hip.
  destruct (cacher_spec k rt) as (Hret & Hst & _ & Hfl & Hdp & _).
  pose proof (cache_inv_cacher k rt Hinv) as Hinv1.
  destruct (cacher k rt) as [v rt1] eqn:Hc. simpl in *.
  unfold dispatches in *. rewrite Hcv, Hip in *. simpl in *.
  assert (k ∈ inflight rt1) as Hin by (rewrite Hfl; set_solver).
  destruct (on_settled_spec k (Rejected e) rt1) as (Hst2 & _ & _ & Hdp2).
  exists (on_settled k (Rejected e) rt1). split.
  { unfold run, step. rewrite Hc.
    destruct (decide (k ∈ inflight rt1)); [|done]. by rewrite Hret. }
  split; [by apply cache_inv_on_settled|].
  split; [by rewrite Hst2, Hst|].
  split; [by rewrite Hst2|].
  by rewrite Hdp2, Hdp.
Qed.

Lemma failed_rounds_run k e n : ∀ rt,
  cache_inv rt →
  cachedValue (state_of k rt) = None → inProgress (state_of k rt) = false →
  ∃ obs rt', run (failed_rounds k e n) rt = Some (obs, rt')
             ∧ (∀ v, (k, v) ∈ obs → v = None)
             ∧ count_key k (dispatched rt') = count_key k (dispatched rt) + n.
Proof.
  induction n as [|n IH]; intros rt Hinv Hcv Hip.
  - exists [], rt. simpl. repeat split; [|lia].
    intros v Hv. by apply elem_of_nil in Hv.
  - destruct (failed_round k e rt Hinv Hcv Hip)
      as (rt1 & Hr1 & Hinv1 & Hcv1 & Hip1 & Hdp1).
    destruct (IH rt1 Hinv1 Hcv1 Hip1) as (obs & rt2 & Hr2 & Hobs & Hcnt).
    exists ([(k, None)] ++ obs), rt2. split.
    + change (failed_rounds k e (S n))
        with ([Get k; Settle k (Rejected e)] ++ failed_rounds k e n).
      by eapply run_app.
    + split.
      * intros v Hv. apply elem_of_app in Hv as [Hv | Hv]; [|by apply Hobs].
        apply list_elem_of_singleton in Hv. congruence.
      * rewrite Hcnt, Hdp1, count_key_app. simpl.
        destruct (decide (k = k)); [lia | done].
Qed.

(** [n] getters of an absent key in a row all run and all return null. *)
Lemma run_gets_absent k n : ∀ rt,
  cachedValue (state_of k rt) = None →
  ∃ rtn, run (replicate n (Get k)) rt = Some (replicate n (k, None), rtn).
Proof.
  induction n as [|n IH]; intros rt Hcv; simpl.
  - by exists rt.
  - destruct (cacher_spec k rt) as (Hret & Hst & _).
    destruct (cacher k rt) as [v rt1] eqn:Hc. simpl in Hret, Hst.
    destruct (IH rt1) as (rtn & ->); [by rewrite Hst|].
    exists rtn. by rewrite Hret, Hcv.
Qed.

Lemma unsettled_gets k n : unsettled k (replicate n (Get k)) = true.
Proof. induction n as [|n IH]; simpl; done. Qed.

Lemma gets_of_gets k n : gets_of k (replicate n (Get k)) = n.
Proof.
  induction n as [|n IH]; simpl; [done|].
  destruct (decide (k = k)); [by rewrite IH | done].
Qed.

(** The single-flight property along one sequence of turns. *)
Lemma single_flight_trace (k : Key) (rt : Runtime) (evs : list Event)
    (obs : list (Key * option string)) (rt' : Runtime) :
  reachable rt →
  cachedValue (state_of k rt) = None →
  inProgress (state_of k rt) = false →
  unsettled k evs = true →
  1 ≤ gets_of k evs →
  run evs rt = Some (obs, rt') →
  count_key k (dispatched rt') = S (count_key k (dispatched rt))
  ∧ count_key k (inflight rt') = 1
  ∧ inProgress (state_of k rt') = true
  ∧ (∀ v, (k, v) ∈ obs → v = None)
  ∧ ∀ result evs2,
      step (Settle k (Resolved result)) rt'
      = Some ([], on_settled k (Resolved result) rt')
      ∧ ∀ obs2 rt2,
          run evs2 (on_settled k (Resolved result) rt') = Some (obs2, rt2) →
          (∀ x, (k, x) ∈ obs2 → x = Some result)
          ∧ count_key k (dispatched rt2) = count_key k (dispatched rt').
Proof.
  intros Hreach Hcv Hip Hq Hn Hrun.
  pose proof (cache_inv_reachable _ Hreach) as Hinv.
  pose proof (cache_inv_run _ _ _ _ Hinv Hrun) as Hinv'.
  destruct (run_unsettled k evs _ _ _ Hrun Hq Hcv) as (Hcv' & Hobs & Hip' & Hd).
  rewrite Hip in Hip', Hd. simpl in Hip'.
  destruct (gets_of k evs =? 0) eqn:Hz; [apply Nat.eqb_eq in Hz; lia |].
  simpl in Hip'.
  assert (count_key k (inflight rt') = 1) as Hone.
  { destruct (Hinv' k) as [Hc _]. by rewrite Hip' in Hc. }
  assert (k ∈ inflight rt') as Hin by (apply count_key_pos_elem_of; lia).
  split; [lia|]. split; [done|]. split; [done|]. split; [done|].
  intros result evs2. split.
  - simpl. destruct (decide (k ∈ inflight rt')); done.
  - intros obs2 rt2 Hrun2.
    destruct (on_settled_spec k (Resolved result) rt') as (Hst & _ & _ & Hdp).
    assert (cachedValue (state_of k (on_settled k (Resolved result) rt'))
            = Some result) as Hcached by (by rewrite Hst).
    destruct (run_cached k result evs2 _ _ _
                (cache_inv_on_settled _ _ _ Hinv' Hin) Hcached Hrun2)
      as (_ & Hall & Hcnt).
    split; [done|]. by rewrite Hcnt, Hdp.
Qed.

(** ** The cache: properties *)

(** C1. Single-flight cache. Take any state the program can reach in which
    nothing is cached for key [k] and no fetch of [k] is in progress, and
    [n ≥ 1]. Then [n] getters of [k] in a row all return null and start
    exactly one fetch. More generally, along any sequence of turns (getters
    of any key, settlements of the fetches of other keys) in which the
    getter of [k] is called [n] times and the fetch of [k] does not settle:
    exactly one fetch of [k] has been started, it is the only one in
    flight, the flag of [k] is set, and every getter of [k] returned null;
    that fetch can then resolve, and once it has resolved with [result],
    every getter of [k] in every continuation returns [result] and no fetch
    of [k] is started again. *)
Theorem single_flight (k : Key) (rt : Runtime) (n : nat) :
  reachable rt →
  cachedValue (state_of k rt) = None →
  inProgress (state_of k rt) = false →
  1 ≤ n →
  (∃ rtn, run (replicate n (Get k)) rt = Some (replicate n (k, None), rtn)
          ∧ count_key k (dispatched rtn) = S (count_key k (dispatched rt)))
  ∧ ∀ evs obs rt',
      unsettled k evs = true →
      gets_of k evs = n →
      run evs rt = Some (obs, rt') →
      count_key k (dispatched rt') = S (count_key k (dispatched rt))
      ∧ count_key k (inflight rt') = 1
      ∧ inProgress (state_of k rt') = true
      ∧ (∀ v, (k, v) ∈ obs → v = None)
      ∧ ∀ result evs2,
          step (Settle k (Resolved result)) rt'
          = Some ([], on_settled k (Resolved result) rt')
          ∧ ∀ obs2 rt2,
              run evs2 (on_settled k (Resolved result) rt') = Some (obs2, rt2) →
              (∀ x, (k, x) ∈ obs2 → x = Some result)
              ∧ count_key k (dispatched rt2) = count_key k (dispatched rt').
Proof.
  intros Hreach Hcv Hip Hn. split.
  - destruct (run_gets_absent k n rt Hcv) as (rtn & Hrun).
    exists rtn. split; [done|].
    destruct (single_flight_trace k rt (replicate n (Get k))
                (replicate n (k, None)) rtn) as (Hone & _); try done.
    + apply unsettled_gets.
    + by rewrite gets_of_gets.
  - intros evs obs rt' Hq Hg Hrun.
    apply (single_flight_trace k rt evs obs rt');
      [done | done | done | done | lia | done].
Qed.

(** C4. Retry after failure. In any state the program can reach with a
    fetch of [k] in flight, the failure of that fetch changes no cached
    value, leaves [k] absent and clears its flag; the next getter of [k]
    returns null and starts exactly one new fetch; and this repeats without
    limit: [n] further rounds of getter-then-failure start [n] fetches. *)
Theorem retry_after_failure (k : Key) (e : JsError) (rt : Runtime) :
  reachable rt →
  k ∈ inflight rt →
  let rt1 := on_settled k (Rejected e) rt in
  step (Settle k (Rejected e)) rt = Some ([], rt1)
  ∧ (∀ k', cachedValue (state_of k' rt1) = cachedValue (state_of k' rt))
  ∧ cachedValue (state_of k rt1) = None
  ∧ inProgress (state_of k rt1) = false
  ∧ count_key k (inflight rt1) = 0
  ∧ (cacher k rt1).1 = None
  ∧ dispatched (cacher k rt1).2 = dispatched rt ++ [k]
  ∧ count_key k (inflight (cacher k rt1).2) = 1
  ∧ ∀ n, ∃ obs rtn,
      run (failed_rounds k e n) rt1 = Some (obs, rtn)
      ∧ (∀ v, (k, v) ∈ obs → v = None)
      ∧ count_key k (dispatched rtn) = count_key k (dispatched rt) + n.
Proof.
  intros Hreach Hin rt1.
  pose proof (cache_inv_reachable _ Hreach) as Hinv.
  destruct (inflight_absent k rt Hinv Hin) as (Hcv & Hip & Hone).
  pose proof (cache_inv_on_settled k (Rejected e) rt Hinv Hin) as Hinv1.
  destruct (on_settled_spec k (Rejected e) rt) as (Hst & Hoth & Hfl & Hdp).
  fold rt1 in Hinv1, Hst, Hoth, Hfl, Hdp.
  assert (cachedValue (state_of k rt1) = None) as Hcv1 by (by rewrite Hst).
  assert (inProgress (state_of k rt1) = false) as Hip1 by (by rewrite Hst).
  destruct (cacher_spec k rt1) as (Hret & Hst2 & _ & Hfl2 & Hdp2 & _).
  pose proof (cache_inv_cacher k rt1 Hinv1) as Hinv2.
  split. { simpl. destruct (decide (k ∈ inflight rt)); done. }
  split. { intros k'. destruct (decide (k' = k)) as [->|Hne].
           - by rewrite Hcv1, Hcv. - by rewrite Hoth. }
  split; [done|]. split; [done|].
  split. { destruct (Hinv1 k) as [Hc _]. by rewrite Hip1 in Hc. }
  split. { by rewrite Hret. }
  split. { rewrite Hdp2, Hdp. unfold dispatches. by rewrite Hcv1, Hip1. }
  split. { destruct (Hinv2 k) as [Hc _]. rewrite Hc, Hst2. simpl.
           unfold dispatches. by rewrite Hcv1, Hip1. }
  intros n.
  destruct (failed_rounds_run k e n rt1 Hinv1 Hcv1 Hip1)
    as (obs & rtn & Hr & Hobs & Hcnt).
  exists obs, rtn. by rewrite Hcnt, Hdp.
Qed.

Lemma single_flight_witness :
  let k := (BASE_URI, VERSION_URI) in
  let evs := [Get k; Get (BASE_URI, NEWS_URI); Get k; Get k] in
  (∃ rtn, run (replicate 3 (Get k)) boot = Some (replicate 3 (k, None), rtn)
          ∧ count_key k (dispatched rtn) = 1)
  ∧ ∃ obs rt',
      run evs boot = Some (obs, rt')
      ∧ count_key k (dispatched rt') = 1
      ∧ count_key k (inflight rt') = 1
      ∧ (∀ v, (k, v) ∈ obs → v = None).
Proof.
  intros k evs.
  destruct (single_flight k boot 3) as [Hburst Htrace].
  - exists [], []. reflexivity.
  - reflexivity.
  - reflexivity.
  - lia.
  - split; [exact Hburst|].
    destruct (run evs boot) as [[obs rt']|] eqn:Hr;
      [| vm_compute in Hr; discriminate Hr].
    exists obs, rt'. split; [reflexivity|].
    destruct (Htrace evs obs rt') as (H1 & H2 & _ & H3 & _).
    + reflexivity.
    + vm_compute. reflexivity.
    + exact Hr.
    + split; [exact H1 | split; [exact H2 | exact H3]].
Defined.

Lemma retry_after_failure_witness :
  let k := (BASE_URI, STATUS_URI) in
  let e := TransportError "ECONNRESET" in
  let rt := (cacher k boot).2 in
  let rt1 := on_settled k (Rejected e) rt in
  cachedValue (state_of k rt1) = None
  ∧ inProgress (state_of k rt1) = false
  ∧ (cacher k rt1).1 = None
  ∧ dispatched (cacher k rt1).2 = dispatched rt ++ [k].
Proof.
  intros k e rt rt1.
  destruct (retry_after_failure k e rt) as (_ & _ & H1 & H2 & _ & H3 & H4 & _).
  - exists [Get k], [(k, None)]. reflexivity.
  - apply count_key_pos_elem_of. vm_compute. lia.
  - split; [exact H1 | split; [exact H2 | split; [exact H3 | exact H4]]].
Defined.

(** ** Promises: lemmas *)

Lemma insert_by_perm key i l : insert_by key i l ≡ₚ i :: l.
Proof.
  induction l as [|j l IH]; simpl; [done|].
  destruct (key i <=? key j); [done|].
  rewrite IH. apply Permutation_swap.
Qed.

Lemma completion_order_perm {A} (ps : list (Promise A)) :
  completion_order ps ≡ₚ seq 0 (length ps).
Proof.
  unfold completion_order. generalize (seq 0 (length ps)) as l.
  induction l as [|i l IH]; simpl; [done|].
  by rewrite insert_by_perm, IH.
Qed.

Lemma fates_lookup {A} (ps : list (Promise A)) (vs : list A) i p :
  List.map fate ps = List.map Resolved vs → ps !! i = Some p →
  ∃ v, vs !! i = Some v ∧ fate p = Resolved v.
Proof.
  intros Heq Hp.
  assert (List.map fate ps !! i = Some (fate p)) as Hf.
  { change (List.map fate ps) with (fate <$> ps).
    by rewrite list_lookup_fmap, Hp. }
  rewrite Heq in Hf. change (List.map Resolved vs) with (Resolved <$> vs) in Hf.
  rewrite list_lookup_fmap in Hf.
  destruct (vs !! i) as [v|]; [|done].
  exists v. split; [done|]. simpl in Hf. congruence.
Qed.

(** When no promise rejects, the settlements fill exactly the positions
    they are made for, whatever their order. *)
Lemma settle_all_resolved {A} (ps : list (Promise A)) (vs : list A) :
  List.map fate ps = List.map Resolved vs →
  ∀ order values, length values = length ps →
  ∃ values', settle_all order ps values = Resolved values'
    ∧ length values' = length ps
    ∧ ∀ j, values' !! j
           = if decide (j ∈ order ∧ j < length ps)
             then Some <$> vs !! j else values !! j.
Proof.
  intros Heq. induction order as [|i order IH]; intros values Hlen; simpl.
  - exists values. split; [done|]. split; [done|]. intros j.
    destruct (decide (j ∈ [] ∧ j < length ps)) as [[Hj _]|];
      [by apply elem_of_nil in Hj | done].
  - destruct (ps !! i) as [p|] eqn:Hp.
    + destruct (fates_lookup ps vs i p Heq Hp) as (v & Hv & Hf).
      rewrite Hf.
      destruct (IH (<[i := Some v]> values)) as (values' & Hs & Hl & Hlk).
      { by rewrite length_insert. }
      exists values'. split; [done|]. split; [done|]. intros j. rewrite Hlk.
      apply lookup_lt_Some in Hp.
      destruct (decide (j ∈ order ∧ j < length ps)) as [[H1 H2]|Hn].
      * rewrite decide_True; [done | split; [by right | done]].
      * destruct (decide (j = i)) as [->|Hne].
        -- rewrite decide_True; [|split; [by left | done]].
           rewrite list_lookup_insert_eq by lia. by rewrite Hv.
        -- rewrite list_lookup_insert_ne by done.
           rewrite decide_False; [done|].
           intros [Hj H2]. apply elem_of_cons in Hj as [?|?]; [done|].
           by apply Hn.
    + destruct (IH values Hlen) as (values' & Hs & Hl & Hlk).
      exists values'. split; [done|]. split; [done|]. intros j. rewrite Hlk.
      apply lookup_ge_None in Hp.
      destruct (decide (j ∈ order ∧ j < length ps)) as [[H1 H2]|Hn].
      * rewrite decide_True; [done | split; [by right | done]].
      * rewrite decide_False; [done|].
        intros [Hj H2]. apply elem_of_cons in Hj as [->|?]; [lia|].
        by apply Hn.
Qed.

Lemma omap_id_Some {A} (vs : list A) : omap id (Some <$> vs) = vs.
Proof. induction vs as [|v vs IH]; [done | cbn; by f_equal]. Qed.

(** [Promise.all] over promises that all resolve: the values, in the order
    of the promises, whenever each of them settles. *)
Lemma Promise_all_resolved {A} (ps : list (Promise A)) (vs : list A) :
  List.map fate ps = List.map Resolved vs → Promise_all ps = Resolved vs.
Proof.
  intros Heq. unfold Promise_all.
  destruct (settle_all_resolved ps vs Heq (completion_order ps)
              (replicate (length ps) None)) as (values' & -> & Hl & Hlk).
  { by rewrite length_replicate. }
  assert (length vs = length ps) as Hlv.
  { apply (f_equal length) in Heq. by rewrite !length_map in Heq. }
  assert (values' = Some <$> vs) as ->.
  2:{ change (Resolved (omap id (Some <$> vs)) = Resolved vs).
      by rewrite omap_id_Some. }
  apply list_eq. intros j. rewrite Hlk, list_lookup_fmap.
  destruct (decide (j < length ps)) as [Hlt|Hge].
  - rewrite decide_True; [done|]. split; [|done].
    rewrite completion_order_perm. apply elem_of_seq. lia.
  - rewrite decide_False by (intros [_ ?]; done).
    rewrite (proj1 (lookup_replicate_None _ _ _)) by lia.
    rewrite lookup_ge_None_2; [done | lia].
Qed.

(** ** The server directory: lemmas *)

Lemma fold_left_concat {A} (l : list (list A)) : ∀ x,
  fold_left (fun acc val => acc ++ val) l x = x ++ concat l.
Proof.
  induction l as [|y l IH]; intros x; simpl.
  - by rewrite app_nil_r.
  - by rewrite IH, app_assoc.
Qed.

(** On a list of IPs that is not empty, the queries are the product. *)
Lemma serverQueries_cons ip ips ports :
  serverQueries (ip :: ips) ports
  = Resolved (buildTargets (ip :: ips) (default PORT_LIST ports)).
Proof.
  unfold serverQueries, buildTargets, reduce. simpl.
  by rewrite fold_left_concat, flat_map_concat_map.
Qed.

(** On the empty list of IPs, [reduce] throws. *)
Lemma serverQueries_nil ports :
  serverQueries [] ports
  = Rejected (TypeError "Reduce of empty array with no initial value").
Proof. reflexivity. Qed.

Lemma split_lines_not_nil s : split_lines s ≠ [].
Proof.
  induction s as [|c s IH]; simpl; [done|].
  destruct (Ascii.eqb c LF); [done|].
  destruct s as [|c' s']; [done|].
  destruct (Ascii.eqb c CR && Ascii.eqb c' LF); [done|].
  destruct (split_lines (String c' s')); done.
Qed.

Section DirectoryFacts.
Variable w : World.

(** The queries are issued left to right; each gets the promise the world
    gives at that moment. *)
Lemma dispatch_all T : ∀ log,
  async_map
    (fun query =>
       let* p := gamedigQuery w query in
       async_ret (promise_then p (fun result => ArkServerInfo_new result)))
    T log
  = (Resolved (promises_of w (length log) T), log ++ List.map GamedigQuery T).
Proof.
  induction T as [|q T IH]; intros log; simpl.
  - unfold async_ret. by rewrite app_nil_r.
  - unfold async_bind at 1. unfold async_bind at 1. unfold gamedigQuery at 1.
    unfold record_at.
    destruct (gamedig w (length log) q) as [t r] eqn:Hg. simpl.
    unfold async_bind at 1. rewrite IH. unfold async_ret.
    rewrite length_app. simpl. rewrite Nat.add_1_r.
    by rewrite <- app_assoc.
Qed.

(** After [.catch(() => null)] every promise resolves, and what is not
    null among the values are the successes, in order. *)
Lemma nullable_fates T : ∀ t,
  ∃ vs, List.map fate (List.map (fun qpromise => promise_catch_null qpromise)
                                (promises_of w t T))
        = List.map Resolved vs
        ∧ filter_not_null vs = successes w t T.
Proof.
  induction T as [|q T IH]; intros t; simpl.
  - by exists [].
  - destruct (IH (S t)) as (vs & Hvs & Hf).
    destruct (record_at w t q) as [r|e] eqn:Hr.
    + exists (Some r :: vs). simpl. by rewrite Hvs, Hf.
    + exists (None :: vs). simpl. by rewrite Hvs, Hf.
Qed.

(** [getServerList], once the IPs are known and the queries are built:
    the successes, in the order of the targets; every query is issued. *)
Lemma getServerList_run serverIPs ports log ips log1 T :
  useServerIPs w serverIPs log = (Resolved ips, log1) →
  serverQueries ips ports = Resolved T →
  getServerList w serverIPs ports log
  = (Resolved (successes w (length log1) T), log1 ++ List.map GamedigQuery T).
Proof.
  intros Hips HT. unfold getServerList, getServerPromises.
  unfold async_bind at 1. unfold async_bind at 1. rewrite Hips.
  unfold async_bind at 1. unfold await at 1. rewrite HT.
  rewrite dispatch_all.
  destruct (nullable_fates T (length log1)) as (vs & Hvs & Hf).
  unfold async_bind, await. rewrite (Promise_all_resolved _ vs Hvs).
  unfold async_ret. by rewrite Hf.
Qed.

Lemma getServerList_no_ips serverIPs ports log e log1 :
  useServerIPs w serverIPs log = (Rejected e, log1) →
  getServerList w serverIPs ports log = (Rejected e, log1).
Proof.
  intros Hips. unfold getServerList, getServerPromises.
  unfold async_bind at 1. unfold async_bind at 1. by rewrite Hips.
Qed.

Lemma getServerList_no_queries serverIPs ports log ips log1 e :
  useServerIPs w serverIPs log = (Resolved ips, log1) →
  serverQueries ips ports = Rejected e →
  getServerList w serverIPs ports log = (Rejected e, log1).
Proof.
  intros Hips HT. unfold getServerList, getServerPromises.
  unfold async_bind at 1. unfold async_bind at 1. rewrite Hips.
  unfold async_bind at 1. unfold await at 1. by rewrite HT.
Qed.

(** With an explicit list of IPs that is not empty nothing is fetched and
    the round resolves. *)
Lemma getServerList_explicit ip ips ports log :
  getServerList w (Some (ip :: ips)) ports log
  = (Resolved (successes w (length log)
                 (buildTargets (ip :: ips) (default PORT_LIST ports))),
     log ++ List.map GamedigQuery
              (buildTargets (ip :: ips) (default PORT_LIST ports))).
Proof.
  apply (getServerList_run _ _ _ (ip :: ips)); [done|].
  apply serverQueries_cons.
Qed.

(** With no list of IPs the server list is fetched first; the round
    rejects when the fetch does, and otherwise runs on the parsed list,
    which is never empty. *)
Lemma getServerList_fetched ports log :
  getServerList w None ports log
  = match http_get w (length log) (BASE_URI +:+ SERVER_LIST_URI) with
    | Resolved serverList =>
        getServerList w
          (Some (List.map first_token (split_lines serverList))) ports
          (log ++ [HttpGet (BASE_URI +:+ SERVER_LIST_URI)])
    | Rejected e =>
        (Rejected e, log ++ [HttpGet (BASE_URI +:+ SERVER_LIST_URI)])
    end.
Proof.
  destruct (http_get w (length log) (BASE_URI +:+ SERVER_LIST_URI))
    as [serverList|e] eqn:Hh.
  - unfold getServerList, getServerPromises, useServerIPs, fetchUri.
    unfold async_bind at 1 5. unfold async_bind at 1 4.
    unfold async_bind at 1. rewrite Hh. done.
  - apply getServerList_no_ips. unfold useServerIPs, fetchUri, async_bind.
    by rewrite Hh.
Qed.

Lemma successes_elem_of T : ∀ t r,
  r ∈ successes w t T
  ↔ ∃ i q, T !! i = Some q ∧ record_at w (t + i) q = Resolved r.
Proof.
  induction T as [|q T IH]; intros t r; simpl.
  - split; [intros H; by apply elem_of_nil in H | intros (i & q & H & _); done].
  - split.
    + intros Hin. destruct (record_at w t q) as [r0|e] eqn:Hr.
      * apply elem_of_cons in Hin as [-> | Hin].
        -- exists 0, q. by rewrite Nat.add_0_r.
        -- apply IH in Hin as (i & q' & Hq & Hrec).
           exists (S i), q'. split; [done|].
           by rewrite <- Nat.add_succ_comm.
      * apply IH in Hin as (i & q' & Hq & Hrec).
        exists (S i), q'. split; [done|].
        by rewrite <- Nat.add_succ_comm.
    + intros (i & q' & Hq & Hrec). destruct i as [|i]; simpl in Hq.
      * injection Hq as <-. rewrite Nat.add_0_r in Hrec. rewrite Hrec. by left.
      * rewrite <- Nat.add_succ_comm in Hrec.
        assert (r ∈ successes w (S t) T) as Hin by (apply IH; eauto).
        destruct (record_at w t q); [by right | done].
Qed.

Lemma successes_all_fail T : ∀ t,
  (∀ i q, T !! i = Some q → ∃ e, record_at w (t + i) q = Rejected e) →
  successes w t T = [].
Proof.
  induction T as [|q T IH]; intros t Hall; simpl; [done|].
  destruct (Hall 0 q eq_refl) as (e & He). rewrite Nat.add_0_r in He.
  rewrite He. apply IH. intros i q' Hq.
  destruct (Hall (S i) q' Hq) as (e' & He').
  exists e'. by rewrite Nat.add_succ_comm.
Qed.

Lemma successes_length T : ∀ t, length (successes w t T) ≤ length T.
Proof.
  induction T as [|q T IH]; intros t; simpl; [done|].
  specialize (IH (S t)). destruct (record_at w t q); simpl; lia.
Qed.

End DirectoryFacts.

(** Worlds with the same answers are not told apart by the directory. *)
Lemma same_answers_record_at w w' t q :
  same_answers w w' → record_at w' t q = record_at w t q.
Proof. intros [_ Hg]. unfold record_at. by rewrite Hg. Qed.

Lemma same_answers_successes w w' T :
  same_answers w w' → ∀ t, successes w' t T = successes w t T.
Proof.
  intros Hsame. induction T as [|q T IH]; intros t; simpl; [done|].
  by rewrite (same_answers_record_at w w' t q Hsame), IH.
Qed.

Lemma same_answers_useServerIPs w w' serverIPs log :
  same_answers w w' → useServerIPs w' serverIPs log = useServerIPs w serverIPs log.
Proof.
  intros [Hh _]. destruct serverIPs as [ips|]; [done|].
  unfold useServerIPs, fetchUri, async_bind. by rewrite Hh.
Qed.

Lemma same_answers_getServerList w w' serverIPs ports log :
  same_answers w w' →
  getServerList w' serverIPs ports log = getServerList w serverIPs ports log.
Proof.
  intros Hsame.
  pose proof (same_answers_useServerIPs w w' serverIPs log Hsame) as Hips.
  destruct (useServerIPs w serverIPs log) as [[ips|e] log1] eqn:Hu.
  - destruct (serverQueries ips ports) as [T|e] eqn:HT.
    + rewrite (getServerList_run w' _ _ _ _ _ _ Hips HT).
      rewrite (getServerList_run w _ _ _ _ _ _ Hu HT).
      by rewrite (same_answers_successes w w' T Hsame).
    + rewrite (getServerList_no_queries w' _ _ _ _ _ _ Hips HT).
      by rewrite (getServerList_no_queries w _ _ _ _ _ _ Hu HT).
  - rewrite (getServerList_no_ips w' _ _ _ _ _ Hips).
    by rewrite (getServerList_no_ips w _ _ _ _ _ Hu).
Qed.

(** The targets of [getServerPromises] on a list of IPs that is not
    empty: one per pair of the product, issued in that order. *)
Lemma getServerPromises_product w ip ips ports log :
  getServerPromises w (Some (ip :: ips)) ports log
  = (Resolved (promises_of w (length log)
                 (buildTargets (ip :: ips) (default PORT_LIST ports))),
     log ++ List.map GamedigQuery
              (buildTargets (ip :: ips) (default PORT_LIST ports))).
Proof.
  unfold getServerPromises. unfold async_bind at 1. unfold async_bind at 1.
  unfold useServerIPs, async_ret at 1, await.
  rewrite serverQueries_cons. apply dispatch_all.
Qed.

Lemma buildTargets_length ips ports :
  length (buildTargets ips ports) = length ips * length ports.
Proof.
  unfold buildTargets. induction ips as [|ip ips IH]; simpl; [done|].
  by rewrite length_app, length_map, IH.
Qed.

Lemma buildTargets_elem_of ips ports q :
  q ∈ buildTargets ips ports
  ↔ ∃ ip port, ip ∈ ips ∧ port ∈ ports ∧ q = queryForHost ip port.
Proof.
  unfold buildTargets. rewrite list_elem_of_In, in_flat_map. split.
  - intros (ip & Hip & Hq). apply in_map_iff in Hq as (port & <- & Hport).
    exists ip, port. by rewrite !list_elem_of_In.
  - intros (ip & port & Hip & Hport & ->). exists ip.
    rewrite <- list_elem_of_In. split; [done|].
    apply in_map. by rewrite <- list_elem_of_In.
Qed.

(** Every way [getServerList] can reject: the fetch of the server list
    failed when no list of IPs was given, or the list given is empty. *)
Lemma getServerList_rejects_iff w serverIPs ports log e :
  (getServerList w serverIPs ports log).1 = Rejected e
  ↔ (serverIPs = None
     ∧ http_get w (length log) (BASE_URI +:+ SERVER_LIST_URI) = Rejected e)
    ∨ (serverIPs = Some []
       ∧ e = TypeError "Reduce of empty array with no initial value").
Proof.
  destruct serverIPs as [[|ip ips]|].
  - rewrite (getServerList_no_queries w (Some []) ports log [] log
               (TypeError "Reduce of empty array with no initial value"));
      [|done|done].
    simpl. split.
    + intros [= <-]. by right.
    + intros [[? _] | [_ ->]]; done.
  - rewrite getServerList_explicit. simpl. split; [done|].
    intros [[? _] | [? _]]; done.
  - rewrite getServerList_fetched.
    destruct (http_get w (length log) (BASE_URI +:+ SERVER_LIST_URI))
      as [serverList|e'] eqn:Hh.
    + destruct (split_lines serverList) as [|l ls] eqn:Hs;
        [by apply split_lines_not_nil in Hs|].
      simpl List.map. rewrite getServerList_explicit. simpl. split; [done|].
      intros [[_ ?] | [? _]]; done.
    + simpl. split.
      * intros [= <-]. by left.
      * intros [[_ [= <-]] | [? _]]; done.
Qed.

(** ** The server directory: properties *)

(** C3. Fan-out resilience. Once the IPs are known and the targets [T] are
    built, [getServerList] resolves, whatever the fates of the queries,
    with exactly the records of the targets whose query succeeded: a
    record is in the result iff the query of some target resolved with it;
    every query was issued; and when every query fails the result is the
    empty list. *)
Theorem fan_out_resilience (w : World) (serverIPs : option (list string))
    (ports : option (list Z)) (log : list Effect) (ips : list string)
    (log1 : list Effect) (T : list Query) :
  useServerIPs w serverIPs log = (Resolved ips, log1) →
  serverQueries ips ports = Resolved T →
  getServerList w serverIPs ports log
  = (Resolved (successes w (length log1) T), log1 ++ List.map GamedigQuery T)
  ∧ (∀ r, r ∈ successes w (length log1) T
          ↔ ∃ i q, T !! i = Some q
                   ∧ record_at w (length log1 + i) q = Resolved r)
  ∧ ((∀ i q, T !! i = Some q
             → ∃ e, record_at w (length log1 + i) q = Rejected e)
     → getServerList w serverIPs ports log
       = (Resolved [], log1 ++ List.map GamedigQuery T)).
Proof.
  intros Hips HT.
  pose proof (getServerList_run w _ _ _ _ _ _ Hips HT) as Hrun.
  split; [done|]. split; [apply successes_elem_of|].
  intros Hall. by rewrite Hrun, (successes_all_fail w T _ Hall).
Qed.

(** C10. Dispatch order. On a list of IPs that is not empty, the records
    come in the order of the targets (the product, IPs outermost, ports in
    list order) with the failed targets removed; and a world that gives
    the same answers at other instants gives the same result. *)
Theorem dispatch_order (w w' : World) (serverIPs : option (list string))
    (ports : option (list Z)) (log : list Effect) (ips : list string)
    (log1 : list Effect) :
  same_answers w w' →
  useServerIPs w serverIPs log = (Resolved ips, log1) →
  ips ≠ [] →
  getServerList w serverIPs ports log
  = (Resolved (successes w (length log1)
                 (buildTargets ips (default PORT_LIST ports))),
     log1 ++ List.map GamedigQuery (buildTargets ips (default PORT_LIST ports)))
  ∧ getServerList w' serverIPs ports log = getServerList w serverIPs ports log.
Proof.
  intros Hsame Hips Hne. split.
  - destruct ips as [|ip ips]; [done|].
    apply (getServerList_run w _ _ _ _ _ _ Hips), serverQueries_cons.
  - by apply same_answers_getServerList.
Qed.

(** C7, at the input that breaks it. With the empty list of IPs given
    explicitly, [getServerList] rejects with a [TypeError], although no
    fetch of the server list was involved: nothing was issued. *)
Theorem getServerList_empty_ips (w : World) (ports : option (list Z))
    (log : list Effect) :
  getServerList w (Some []) ports log
  = (Rejected (TypeError "Reduce of empty array with no initial value"), log).
Proof. by apply (getServerList_no_queries w (Some []) ports log [] log). Qed.

(** C8, at the input that breaks it. The product of the empty list of IPs
    with any list of ports is the empty set of targets, but
    [getServerPromises] builds no target list there: it rejects. *)
Theorem getServerPromises_empty_ips (w : World) (ports : option (list Z))
    (log : list Effect) :
  buildTargets [] (default PORT_LIST ports) = []
  ∧ getServerPromises w (Some []) ports log
    = (Rejected (TypeError "Reduce of empty array with no initial value"), log).
Proof. split; reflexivity. Qed.

Lemma fan_out_resilience_witness :
  getServerList fleet (Some ["10.0.0.1"; "10.0.0.2"]) None []
  = (Resolved (successes fleet 0
                 (buildTargets ["10.0.0.1"; "10.0.0.2"] PORT_LIST)),
     List.map GamedigQuery (buildTargets ["10.0.0.1"; "10.0.0.2"] PORT_LIST))
  ∧ length (successes fleet 0
              (buildTargets ["10.0.0.1"; "10.0.0.2"] PORT_LIST)) = 2.
Proof.
  split; [|reflexivity].
  apply (fan_out_resilience fleet (Some ["10.0.0.1"; "10.0.0.2"]) None []
           ["10.0.0.1"; "10.0.0.2"] []
           (buildTargets ["10.0.0.1"; "10.0.0.2"] PORT_LIST)).
  - reflexivity.
  - reflexivity.
Defined.

Lemma dispatch_order_witness :
  getServerList fleet None None []
  = (Resolved (successes fleet 1
                 (buildTargets ["10.0.0.1"; "10.0.0.2"] PORT_LIST)),
     [HttpGet SERVER_LIST_FULL_URI]
     ++ List.map GamedigQuery (buildTargets ["10.0.0.1"; "10.0.0.2"] PORT_LIST))
  ∧ getServerList fleet_slow None None [] = getServerList fleet None None [].
Proof.
  apply (dispatch_order fleet fleet_slow None None []
           ["10.0.0.1"; "10.0.0.2"] [HttpGet SERVER_LIST_FULL_URI]).
  - split; intros; reflexivity.
  - reflexivity.
  - discriminate.
Defined.

(** The settle order really differs between the two sample worlds, and the
    records come out in the order of the targets in both. *)
Example fleet_orders :
  completion_order (promises_of fleet 1
                      (buildTargets ["10.0.0.1"; "10.0.0.2"] PORT_LIST))
  = [7; 6; 5; 4; 3; 2; 1; 0]
  ∧ completion_order (promises_of fleet_slow 1
                        (buildTargets ["10.0.0.1"; "10.0.0.2"] PORT_LIST))
    = [0; 1; 2; 3; 4; 5; 6; 7]
  ∧ List.map name (getServerList_names fleet) = [Some "Srv-B"; Some "Srv-A"]
  ∧ List.map name (getServerList_names fleet_slow) = [Some "Srv-B"; Some "Srv-A"].
Proof. repeat split; reflexivity. Qed.

(** ** The resolver: lemmas *)

Lemma to_boolean_Some {A} `{ToBoolean A} (a : A) :
  to_boolean (Some a) = to_boolean a.
Proof. reflexivity. Qed.

Lemma to_boolean_None {A} `{ToBoolean A} : to_boolean (@None A) = false.
Proof. reflexivity. Qed.

Lemma name_is_true serverName info :
  name_is serverName info = true ↔ name info = Some serverName.
Proof. unfold name_is. apply bool_decide_eq_true. Qed.

Lemma first_named_Some serverName l r :
  first_named serverName l = Some r → r ∈ l ∧ name r = Some serverName.
Proof.
  unfold first_named. intros Hh.
  assert (In r (List.filter (name_is serverName) l)) as Hin.
  { destruct (List.filter (name_is serverName) l) as [|x fl]; [done|].
    injection Hh as ->. by left. }
  apply filter_In in Hin as [Hin Hn].
  split; [by apply list_elem_of_In | by apply name_is_true].
Qed.

Lemma filter_name_nil serverName l :
  (∀ r, r ∈ l → name r ≠ Some serverName) →
  List.filter (name_is serverName) l = [].
Proof.
  intros Hall. induction l as [|x l IH]; simpl; [done|].
  destruct (name_is serverName x) eqn:Hn.
  - apply name_is_true in Hn. exfalso. apply (Hall x); [by left | done].
  - apply IH. intros r Hr. apply Hall. by right.
Qed.

Lemma filter_name_cons serverName l r :
  r ∈ l → name r = Some serverName →
  ∃ r' fl, List.filter (name_is serverName) l = r' :: fl.
Proof.
  intros Hin Hn.
  assert (In r (List.filter (name_is serverName) l)) as Hf.
  { apply filter_In. split; [by apply list_elem_of_In | by apply name_is_true]. }
  destruct (List.filter (name_is serverName) l) as [|r' fl]; [done|].
  by exists r', fl.
Qed.

(** The resolver is the staged search of the specification. *)
Lemma getServerInfo_stages w serverName opts log :
  getServerInfo w serverName opts log
  = first_stage_match w serverName (stages_of opts) log.
Proof.
  destruct opts as [h p fb]. unfold getServerInfo, stages_of, hint_list. simpl.
  destruct h as [h|], p as [p|]; rewrite ?to_boolean_Some, ?to_boolean_None;
    try destruct (to_boolean h); try destruct (to_boolean p); destruct fb; simpl;
    unfold async_bind, async_ret; repeat round; reflexivity.
Qed.

(** A stage that finds nothing hands over to the next stages; a stage that
    finds a record answers; a stage that rejects ends the search. *)
Lemma first_stage_match_cons w serverName st stages log :
  first_stage_match w serverName (st :: stages) log
  = match getServerList w (stage_args st).1 (stage_args st).2 log with
    | (Resolved l, log') =>
        match first_named serverName l with
        | Some r => (Resolved (Some r), log')
        | None => first_stage_match w serverName stages log'
        end
    | (Rejected e, log') => (Rejected e, log')
    end.
Proof.
  simpl. unfold async_bind at 1, first_named.
  destruct (getServerList w (stage_args st).1 (stage_args st).2 log)
    as [[l|e] log']; [|done].
  destruct (List.filter (name_is serverName) l); done.
Qed.

(** A full round when the list can be fetched. *)
Lemma getServerList_default w ports log serverList :
  http_get w (length log) (BASE_URI +:+ SERVER_LIST_URI) = Resolved serverList →
  getServerList w None ports log
  = (Resolved (successes w (S (length log))
                 (buildTargets (List.map first_token (split_lines serverList))
                               (default PORT_LIST ports))),
     log ++ HttpGet (BASE_URI +:+ SERVER_LIST_URI)
         :: List.map GamedigQuery
              (buildTargets (List.map first_token (split_lines serverList))
                            (default PORT_LIST ports))).
Proof.
  intros Hh. rewrite getServerList_fetched, Hh.
  destruct (split_lines serverList) as [|l ls] eqn:Hs;
    [by apply split_lines_not_nil in Hs|].
  simpl List.map. rewrite getServerList_explicit.
  rewrite length_app. simpl length. rewrite Nat.add_1_r.
  by rewrite <- app_assoc.
Qed.

(** No record named [serverName] among the successes of targets none of
    which yields one. *)
Lemma successes_none_named w serverName T t :
  (∀ t' q r, q ∈ T → record_at w t' q = Resolved r → name r ≠ Some serverName) →
  List.filter (name_is serverName) (successes w t T) = [].
Proof.
  intros Hall. apply filter_name_nil. intros r Hr.
  apply successes_elem_of in Hr as (i & q & Hq & Hrec).
  eapply Hall; [|done]. apply list_elem_of_lookup. eauto.
Qed.

(** The stages of a request with both hints. *)
Lemma stages_of_both h p fb :
  to_boolean h = true → to_boolean p = true →
  stages_of {| host := Some h; port := Some p; fallback := fb |}
  = Hinted (Some [h]) (Some [p])
    :: (if fb then [HostOnly h; PortOnly p; FullScan] else []).
Proof.
  intros Hh Hp. unfold stages_of, hint_list. simpl.
  rewrite !to_boolean_Some, Hh, Hp. by destruct fb.
Qed.

(** No stage of the resolver passes an empty list of IPs. *)
Lemma stages_of_ips opts :
  Forall (fun st => (stage_args st).1 ≠ Some []) (stages_of opts).
Proof.
  destruct opts as [[h|] [p|] fb]; unfold stages_of, hint_list; simpl;
    rewrite ?to_boolean_Some, ?to_boolean_None;
    try destruct (to_boolean h); try destruct (to_boolean p);
    destruct fb; simpl; repeat constructor; simpl; done.
Qed.

Lemma first_stage_match_rejects w serverName stages :
  Forall (fun st => (stage_args st).1 ≠ Some []) stages →
  ∀ log e,
    (first_stage_match w serverName stages log).1 = Rejected e →
    ∃ t, http_get w t (BASE_URI +:+ SERVER_LIST_URI) = Rejected e.
Proof.
  induction 1 as [|st stages Hst _ IH]; intros log e; [done|].
  rewrite first_stage_match_cons.
  destruct (getServerList w (stage_args st).1 (stage_args st).2 log)
    as [[l|e'] log'] eqn:Hround.
  - destruct (first_named serverName l); [done | apply IH].
  - simpl. intros [= ->].
    assert ((getServerList w (stage_args st).1 (stage_args st).2 log).1
            = Rejected e) as Hrej by (by rewrite Hround).
    apply getServerList_rejects_iff in Hrej as [[_ Hf] | [Hnil _]]; [eauto | done].
Qed.

(** The resolver rejects only when a fetch of the server list fails. *)
Lemma getServerInfo_rejects w serverName opts log e :
  (getServerInfo w serverName opts log).1 = Rejected e →
  ∃ t, http_get w t (BASE_URI +:+ SERVER_LIST_URI) = Rejected e.
Proof.
  rewrite getServerInfo_stages.
  apply first_stage_match_rejects, stages_of_ips.
Qed.

(** ** The resolver: properties *)

(** C5. Staging, matching and short-circuit. [getServerInfo] is the staged
    search over [stages_of]: the hinted stage, then host-only and port-only
    (both hints given, fallback on), then the full scan (some hint given,
    fallback on). A record matches iff its name is the requested one. A
    stage with a match answers with its first matching record and leaves
    the log as that stage left it: nothing is issued after it. *)
Theorem resolver_staging (w : World) (serverName : string) (opts : Options)
    (log : list Effect) :
  getServerInfo w serverName opts log
  = first_stage_match w serverName (stages_of opts) log
  ∧ (∀ info, name_is serverName info = true ↔ name info = Some serverName)
  ∧ (∀ log0, first_stage_match w serverName [] log0 = (Resolved None, log0))
  ∧ (∀ st stages log0,
       first_stage_match w serverName (st :: stages) log0
       = match getServerList w (stage_args st).1 (stage_args st).2 log0 with
         | (Resolved l, log') =>
             match List.filter (name_is serverName) l with
             | r :: _ => (Resolved (Some r), log')
             | [] => first_stage_match w serverName stages log'
             end
         | (Rejected e, log') => (Rejected e, log')
         end)
  ∧ (∃ hinted rest,
       stages_of opts = hinted :: rest
       ∧ hinted = Hinted (hint_list (host opts)) (hint_list (port opts))
       ∧ sublist rest
           [HostOnly (default EmptyString (host opts));
            PortOnly (default 0%Z (port opts)); FullScan]).
Proof.
  split; [apply getServerInfo_stages|].
  split; [intros info; apply name_is_true|].
  split; [done|]. split.
  - intros st stages log0. simpl. unfold async_bind at 1.
    destruct (getServerList w (stage_args st).1 (stage_args st).2 log0)
      as [[l|e] log']; [|done].
    destruct (List.filter (name_is serverName) l); done.
  - eexists _, _. split; [reflexivity|]. split; [done|].
    destruct opts as [[h|] [p|] fb]; simpl;
      rewrite ?to_boolean_Some, ?to_boolean_None;
      try destruct (to_boolean h); try destruct (to_boolean p);
      destruct fb; simpl;
      repeat first [ apply sublist_nil | apply sublist_skip
                   | apply sublist_cons ].
Qed.

(** C6. No-hint shortcut. With neither hint, whatever the fallback flag,
    the only stage is the hinted one over the default lists: the call is
    one [getServerList(null, null)] round, it answers with that round's
    first record of the requested name, and it issues what that round
    issues and nothing more. *)
Theorem no_hint_shortcut (w : World) (serverName : string) (fb : bool)
    (log : list Effect) :
  let opts := {| host := None; port := None; fallback := fb |} in
  stages_of opts = [Hinted None None]
  ∧ getServerInfo w serverName opts log
    = match getServerList w None None log with
      | (Resolved l, log') => (Resolved (first_named serverName l), log')
      | (Rejected e, log') => (Rejected e, log')
      end
  ∧ (getServerInfo w serverName opts log).2
    = match http_get w (length log) (BASE_URI +:+ SERVER_LIST_URI) with
      | Resolved serverList =>
          log ++ HttpGet (BASE_URI +:+ SERVER_LIST_URI)
              :: List.map GamedigQuery
                   (buildTargets (List.map first_token (split_lines serverList))
                                 PORT_LIST)
      | Rejected _ => log ++ [HttpGet (BASE_URI +:+ SERVER_LIST_URI)]
      end.
Proof.
  intros opts.
  assert (stages_of opts = [Hinted None None]) as Hst.
  { unfold stages_of, opts. simpl. rewrite !to_boolean_None.
    rewrite andb_false_r. done. }
  assert (getServerInfo w serverName opts log
          = match getServerList w None None log with
            | (Resolved l, log') => (Resolved (first_named serverName l), log')
            | (Rejected e, log') => (Rejected e, log')
            end) as Hrun.
  { rewrite getServerInfo_stages, Hst, first_stage_match_cons. simpl.
    destruct (getServerList w None None log) as [[l|e] log']; [|done].
    destruct (first_named serverName l); done. }
  split; [done|]. split; [done|].
  rewrite Hrun.
  destruct (http_get w (length log) (BASE_URI +:+ SERVER_LIST_URI))
    as [serverList|e] eqn:Hh.
  - by rewrite (getServerList_default w None log serverList Hh).
  - by rewrite getServerList_fetched, Hh.
Qed.

(** C9. Falsy hints are absent hints. The empty string as host hint, and
    the integer 0 as port hint, give the same stages, the same answer and
    the same calls as no hint. *)
Theorem falsy_hints_absent (w : World) (serverName : string)
    (h : option string) (p : option Z) (fb : bool) (log : list Effect) :
  stages_of {| host := Some EmptyString; port := p; fallback := fb |}
  = stages_of {| host := None; port := p; fallback := fb |}
  ∧ stages_of {| host := h; port := Some 0%Z; fallback := fb |}
    = stages_of {| host := h; port := None; fallback := fb |}
  ∧ getServerInfo w serverName
      {| host := Some EmptyString; port := p; fallback := fb |} log
    = getServerInfo w serverName
        {| host := None; port := p; fallback := fb |} log
  ∧ getServerInfo w serverName
      {| host := h; port := Some 0%Z; fallback := fb |} log
    = getServerInfo w serverName
        {| host := h; port := None; fallback := fb |} log.
Proof.
  assert (stages_of {| host := Some EmptyString; port := p; fallback := fb |}
          = stages_of {| host := None; port := p; fallback := fb |}) as H1.
  { unfold stages_of. simpl. destruct p as [p|]; simpl.
    - rewrite andb_false_r. simpl. done.
    - done. }
  assert (stages_of {| host := h; port := Some 0%Z; fallback := fb |}
          = stages_of {| host := h; port := None; fallback := fb |}) as H2.
  { unfold stages_of. simpl. destruct h as [h|]; simpl.
    - rewrite !andb_false_r. simpl. done.
    - done. }
  split; [done|]. split; [done|].
  split; by rewrite !getServerInfo_stages, ?H1, ?H2.
Qed.

(** C2. Fallback completeness. Both hints are given; the server list can
    be fetched; no query at the hinted host or at the hinted port ever
    yields a record named [serverName]; some target of the full scan
    always does. Then with fallback on the resolver resolves with a record
    of that name, found by a query of the full scan; with fallback off it
    resolves with null after the one hinted query. It rejects in neither
    case. *)
Theorem fallback_completeness (w : World) (serverName : string) (h : string)
    (p : Z) (log : list Effect) (serverList : string) (ip : string) (port' : Z) :
  to_boolean h = true →
  to_boolean p = true →
  (∀ t, http_get w t (BASE_URI +:+ SERVER_LIST_URI) = Resolved serverList) →
  (∀ t q r, q_host q = h ∨ q_port q = p →
            record_at w t q = Resolved r → name r ≠ Some serverName) →
  ip ∈ List.map first_token (split_lines serverList) →
  port' ∈ PORT_LIST →
  (∀ t, ∃ r, record_at w t (queryForHost ip port') = Resolved r
             ∧ name r = Some serverName) →
  (∃ r log',
      getServerInfo w serverName
        {| host := Some h; port := Some p; fallback := true |} log
      = (Resolved (Some r), log')
      ∧ name r = Some serverName
      ∧ ∃ t ip' port'',
          ip' ∈ List.map first_token (split_lines serverList)
          ∧ port'' ∈ PORT_LIST
          ∧ record_at w t (queryForHost ip' port'') = Resolved r)
  ∧ getServerInfo w serverName
      {| host := Some h; port := Some p; fallback := false |} log
    = (Resolved None, log ++ [GamedigQuery (queryForHost h p)]).
Proof.
  intros Hh Hp Hlist Hwrong Hip Hport Hfull.
  set (ips := List.map first_token (split_lines serverList)) in *.
  assert (∀ t T, (∀ q, q ∈ T → q_host q = h ∨ q_port q = p) →
                 first_named serverName (successes w t T) = None) as Hnone.
  { intros t T HT. unfold first_named. rewrite successes_none_named; [done|].
    intros t' q r Hq. apply Hwrong. by apply HT. }
  assert (first_named serverName
            (successes w (length log) (buildTargets [h] [p])) = None) as Hs1.
  { apply Hnone. intros q Hq.
    apply buildTargets_elem_of in Hq as (a & b & Ha & _ & ->).
    apply list_elem_of_singleton in Ha as ->. by left. }
  split.
  - rewrite getServerInfo_stages, (stages_of_both h p true Hh Hp).
    (* the hinted stage *)
    rewrite first_stage_match_cons. cbn [stage_args fst snd].
    rewrite getServerList_explicit. simpl default. rewrite Hs1.
    set (log1 := log ++ List.map GamedigQuery (buildTargets [h] [p])).
    (* the host-only stage *)
    rewrite first_stage_match_cons. cbn [stage_args fst snd].
    rewrite getServerList_explicit. simpl default.
    rewrite Hnone.
    2:{ intros q Hq. apply buildTargets_elem_of in Hq as (a & b & Ha & _ & ->).
        apply list_elem_of_singleton in Ha as ->. by left. }
    set (log2 := log1 ++ List.map GamedigQuery (buildTargets [h] PORT_LIST)).
    (* the port-only stage *)
    rewrite first_stage_match_cons. cbn [stage_args fst snd].
    rewrite (getServerList_default w (Some [p]) log2 serverList (Hlist _)).
    simpl default. fold ips. rewrite Hnone.
    2:{ intros q Hq. apply buildTargets_elem_of in Hq as (a & b & _ & Hb & ->).
        apply list_elem_of_singleton in Hb as ->. by right. }
    set (log3 := log2 ++ HttpGet (BASE_URI +:+ SERVER_LIST_URI)
                      :: List.map GamedigQuery (buildTargets ips [p])).
    (* the full scan *)
    rewrite first_stage_match_cons. cbn [stage_args fst snd].
    rewrite (getServerList_default w None log3 serverList (Hlist _)).
    simpl default. fold ips.
    set (rs := successes w (S (length log3)) (buildTargets ips PORT_LIST)).
    assert (∃ r, r ∈ rs ∧ name r = Some serverName) as (r & Hr & Hn).
    { assert (queryForHost ip port' ∈ buildTargets ips PORT_LIST) as Hq.
      { apply buildTargets_elem_of. by exists ip, port'. }
      apply list_elem_of_lookup in Hq as (i & Hi).
      destruct (Hfull (S (length log3) + i)) as (r & Hrec & Hn).
      exists r. split; [|done]. apply successes_elem_of. eauto. }
    destruct (filter_name_cons serverName rs r Hr Hn) as (r' & fl & Hf).
    assert (first_named serverName rs = Some r') as Hfirst.
    { unfold first_named. by rewrite Hf. }
    rewrite Hfirst. eexists r', _. split; [reflexivity|].
    apply first_named_Some in Hfirst as [Hin' Hn']. split; [done|].
    apply successes_elem_of in Hin' as (i & q & Hq & Hrec).
    assert (q ∈ buildTargets ips PORT_LIST) as Hqin.
    { apply list_elem_of_lookup. eauto. }
    apply buildTargets_elem_of in Hqin as (a & b & Ha & Hb & ->).
    by exists (S (length log3) + i), a, b.
  - rewrite getServerInfo_stages, (stages_of_both h p false Hh Hp).
    rewrite first_stage_match_cons. cbn [stage_args fst snd].
    rewrite getServerList_explicit. simpl default. by rewrite Hs1.
Qed.

Lemma fallback_completeness_witness :
  (∃ r log',
      getServerInfo fleet "Srv-A"
        {| host := Some "1.2.3.4"; port := Some 27015%Z; fallback := true |} []
      = (Resolved (Some r), log')
      ∧ name r = Some "Srv-A"
      ∧ ∃ t ip' port'',
          ip' ∈ List.map first_token (split_lines fleet_list)
          ∧ port'' ∈ PORT_LIST
          ∧ record_at fleet t (queryForHost ip' port'') = Resolved r)
  ∧ getServerInfo fleet "Srv-A"
      {| host := Some "1.2.3.4"; port := Some 27015%Z; fallback := false |} []
    = (Resolved None, [GamedigQuery (queryForHost "1.2.3.4" 27015%Z)]).
Proof.
  apply (fallback_completeness fleet "Srv-A" "1.2.3.4" 27015%Z []
           fleet_list "10.0.0.2" 27017%Z).
  - reflexivity.
  - reflexivity.
  - intros t. reflexivity.
  - intros t q r Hq. unfold record_at, fleet, fleet_answer. simpl.
    destruct Hq as [-> | ->]; simpl.
    + discriminate.
    + rewrite andb_false_r, andb_true_r.
      destruct (String.eqb (q_host q) "10.0.0.1"); simpl; [|discriminate].
      intros [= <-]. simpl. discriminate.
  - vm_compute. right. left.
  - vm_compute. right. left.
  - intros t. eexists. split; reflexivity.
Defined.


(** * Further properties of the module *)

(** ** The cache *)

(** In every state the program can reach, a key has at most one fetch in
    flight, its flag is set exactly when it has one, and a key with a
    cached value has none. *)
Theorem flag_tracks_flight (k : Key) (rt : Runtime) :
  reachable rt →
  count_key k (inflight rt) ≤ 1
  ∧ (inProgress (state_of k rt) = true ↔ k ∈ inflight rt)
  ∧ (cachedValue (state_of k rt) ≠ None →
     ¬ (k ∈ inflight rt) ∧ inProgress (state_of k rt) = false).
Proof.
  intros Hreach. pose proof (cache_inv_reachable _ Hreach k) as [Hc Hv].
  split; [destruct (inProgress (state_of k rt)); lia|]. split.
  - split.
    + intros Hip. rewrite Hip in Hc. apply count_key_pos_elem_of. lia.
    + intros Hin. apply count_key_elem_of in Hin.
      destruct (inProgress (state_of k rt)); [done | lia].
  - intros Hcv. split; [|by apply Hv].
    intros Hin. apply count_key_elem_of in Hin.
    rewrite (Hv Hcv) in Hc. lia.
Qed.

Lemma flag_tracks_flight_witness :
  let k := (BASE_URI, NEWS_URI) in
  let rt := (cacher k boot).2 in
  count_key k (inflight rt) ≤ 1
  ∧ (inProgress (state_of k rt) = true ↔ k ∈ inflight rt)
  ∧ (cachedValue (state_of k rt) ≠ None →
     ¬ (k ∈ inflight rt) ∧ inProgress (state_of k rt) = false).
Proof.
  intros k rt. apply (flag_tracks_flight k rt).
  exists [Get k], [(k, None)]. reflexivity.
Defined.

(** Calling a getter twice in a row is calling it once: the second call
    returns the same value and changes nothing. *)
Theorem cacher_twice (k : Key) (rt : Runtime) :
  cacher k (cacher k rt).2 = ((cacher k rt).1, (cacher k rt).2).
Proof.
  unfold cacher, cachedUri, state_of.
  destruct (memo rt !! k) as [[cv ip]|] eqn:Hk; simpl.
  - destruct cv as [v|]; simpl.
    + rewrite Hk. simpl. by rewrite Hk.
    + destruct ip; simpl.
      * rewrite Hk. simpl. by rewrite Hk.
      * rewrite !lookup_insert_eq. simpl. by rewrite lookup_insert_eq.
  - rewrite !lookup_insert_eq. simpl. by rewrite !lookup_insert_eq.
Qed.

(** Keys are cached independently: turns about other keys leave the state
    object of [k], its fetches in flight and its fetches started as they
    were, and report nothing for [k]. *)
Theorem keys_independent (k : Key) (evs : list Event) : ∀ rt obs rt',
  forallb (fun ev => negb (about k ev)) evs = true →
  run evs rt = Some (obs, rt') →
  state_of k rt' = state_of k rt
  ∧ count_key k (inflight rt') = count_key k (inflight rt)
  ∧ count_key k (dispatched rt') = count_key k (dispatched rt)
  ∧ ∀ v, ¬ ((k, v) ∈ obs).
Proof.
  induction evs as [|ev evs IH]; intros rt obs rt' Hall; simpl.
  - intros [= <- <-]. repeat split; try done.
    intros v Hv. by apply elem_of_nil in Hv.
  - simpl in Hall. apply andb_true_iff in Hall as [Hev Hall].
    apply negb_true_iff in Hev.
    destruct (step ev rt) as [[o1 rt1]|] eqn:Hs; [|done].
    destruct (run evs rt1) as [[o2 rt2]|] eqn:Hr; [|done].
    intros [= <- <-].
    destruct (IH _ _ _ Hall Hr) as (Hst & Hfl & Hdp & Hobs).
    rewrite Hst, Hfl, Hdp.
    destruct ev as [k1 | k1 r]; simpl in Hs, Hev;
      apply bool_decide_eq_false in Hev.
    + destruct (cacher k1 rt) as [v1 rta] eqn:Hc. injection Hs as <- <-.
      destruct (cacher_spec k1 rt) as (_ & _ & Hoth & Hfl1 & Hdp1 & _).
      rewrite Hc in Hoth, Hfl1, Hdp1. simpl in Hoth, Hfl1, Hdp1.
      rewrite (Hoth k Hev), Hfl1, Hdp1, !count_key_app.
      assert (count_key k (if dispatches (state_of k1 rt) then [k1] else [])
              = 0) as ->.
      { destruct (dispatches (state_of k1 rt)); simpl; [|done].
        destruct (decide (k = k1)); [done | lia]. }
      repeat split; try lia.
      intros v Hv. apply elem_of_cons in Hv as [Hv | Hv]; [congruence|].
      by apply (Hobs v).
    + destruct (decide (k1 ∈ inflight rt)); [|done]. injection Hs as <- <-.
      destruct (on_settled_spec k1 r rt) as (_ & Hoth & Hfl1 & Hdp1).
      rewrite (Hoth k Hev), Hfl1, Hdp1, count_key_remove_first.
      destruct (decide (k = k1)); [done|]. repeat split; try done.
Qed.

Lemma keys_independent_witness :
  let k := (BASE_URI, VERSION_URI) in
  let k' := (BASE_URI, STATUS_URI) in
  let evs := [Get k'; Settle k' (Resolved "ok"); Get k'] in
  ∃ obs rt', run evs boot = Some (obs, rt')
             ∧ state_of k rt' = state_of k boot
             ∧ count_key k (dispatched rt') = 0.
Proof.
  intros k k' evs.
  destruct (run evs boot) as [[obs rt']|] eqn:Hr;
    [| vm_compute in Hr; discriminate Hr].
  exists obs, rt'. split; [reflexivity|].
  destruct (keys_independent k evs boot obs rt') as (H1 & _ & H2 & _).
  - vm_compute. reflexivity.
  - exact Hr.
  - split; [exact H1 | exact H2].
Defined.

(** A cached value is permanent. In a state the program can reach with
    [v] cached for [k], no fetch of [k] can settle any more, and along
    every continuation [v] stays cached, every getter of [k] returns [v]
    and no fetch of [k] is started: the cache never refreshes. *)
Theorem cached_value_permanent (k : Key) (v : string) (rt : Runtime) :
  reachable rt →
  cachedValue (state_of k rt) = Some v →
  (∀ r, step (Settle k r) rt = None)
  ∧ cacher k rt = (Some v, rt)
  ∧ ∀ evs obs rt',
      run evs rt = Some (obs, rt') →
      cachedValue (state_of k rt') = Some v
      ∧ (∀ x, (k, x) ∈ obs → x = Some v)
      ∧ count_key k (dispatched rt') = count_key k (dispatched rt).
Proof.
  intros Hreach Hcv. pose proof (cache_inv_reachable _ Hreach) as Hinv.
  split; [|split].
  - intros r. simpl. destruct (decide (k ∈ inflight rt)) as [Hin|]; [|done].
    destruct (inflight_absent k rt Hinv Hin) as (Hnone & _). congruence.
  - unfold cacher, cachedUri. unfold state_of in Hcv.
    destruct (memo rt !! k) as [st|] eqn:Hk; [|done]. simpl in Hcv. simpl.
    rewrite Hcv. unfold state_of. rewrite Hk. simpl. by rewrite Hcv.
  - intros evs obs rt' Hrun. by apply (run_cached k v evs rt obs rt').
Qed.

Lemma cached_value_permanent_witness :
  let k := (BASE_URI, VERSION_URI) in
  let rt := on_settled k (Resolved "281.110") (cacher k boot).2 in
  (∀ r, step (Settle k r) rt = None) ∧ cacher k rt = (Some "281.110", rt).
Proof.
  intros k rt.
  destruct (cached_value_permanent k "281.110" rt) as (H1 & H2 & _).
  - exists [Get k; Settle k (Resolved "281.110")], [(k, None)].
    vm_compute. reflexivity.
  - reflexivity.
  - split; [exact H1 | exact H2].
Defined.

(** The account of the fetches of one key, kept along a sequence of turns:
    started = failed + succeeded + in flight, with at most one success,
    after which the value is cached. *)
Lemma budget_run k evs : ∀ rt obs rt' a b,
  cache_inv rt →
  count_key k (dispatched rt) = a + b + count_key k (inflight rt) →
  b ≤ 1 →
  (b = 1 → cachedValue (state_of k rt) ≠ None) →
  run evs rt = Some (obs, rt') →
  count_key k (dispatched rt')
  = (a + failures_of k evs) + (b + successes_of k evs)
    + count_key k (inflight rt')
  ∧ b + successes_of k evs ≤ 1
  ∧ (b + successes_of k evs = 1 → cachedValue (state_of k rt') ≠ None).
Proof.
  induction evs as [|ev evs IH]; intros rt obs rt' a b Hinv Hacc Hb Hcached.
  - simpl. intros [= <- <-]. rewrite !Nat.add_0_r. done.
  - simpl run. destruct (step ev rt) as [[o1 rt1]|] eqn:Hs; [|done].
    destruct (run evs rt1) as [[o2 rt2]|] eqn:Hr; [|done].
    intros [= <- <-].
    pose proof (cache_inv_step _ _ _ _ Hinv Hs) as Hinv1.
    destruct ev as [k1 | k1 r]; simpl in Hs.
    + destruct (cacher k1 rt) as [v1 rta] eqn:Hc. injection Hs as <- <-.
      destruct (cacher_spec k1 rt) as (_ & Hst & Hoth & Hfl & Hdp & _).
      rewrite Hc in Hst, Hoth, Hfl, Hdp. simpl in Hst, Hoth, Hfl, Hdp.
      simpl failures_of. simpl successes_of.
      apply (IH rta o2 rt2 a b Hinv1); [| done | | done].
      * rewrite Hdp, Hfl, !count_key_app. lia.
      * intros Hb1. specialize (Hcached Hb1).
        destruct (decide (k = k1)) as [<-|Hne]; [by rewrite Hst | by rewrite Hoth].
    + destruct (decide (k1 ∈ inflight rt)) as [Hin|]; [|done].
      injection Hs as <- <-.
      destruct (on_settled_spec k1 r rt) as (Hst & Hoth & Hfl & Hdp).
      destruct (decide (k = k1)) as [<-|Hne].
      * destruct (inflight_absent k rt Hinv Hin) as (Hnone & _ & Hone).
        assert (b = 0) as -> by (destruct b as [|[|]]; [done | by destruct Hcached | lia]).
        assert (count_key k (inflight (on_settled k r rt)) = 0) as Hzero.
        { rewrite Hfl, count_key_remove_first.
          destruct (decide (k = k)); [lia | done]. }
        destruct r as [result|reason]; simpl failures_of; simpl successes_of;
          destruct (decide (k = k)); try done.
        -- assert (count_key k (dispatched (on_settled k (Resolved result) rt))
                   = a + 1
                     + count_key k (inflight (on_settled k (Resolved result) rt)))
             as Hacc1 by (rewrite Hdp, Hzero; lia).
           assert (1 = 1 → cachedValue
                             (state_of k (on_settled k (Resolved result) rt))
                           ≠ None) as Hcached1 by (by rewrite Hst).
           destruct (IH _ _ _ a 1 Hinv1 Hacc1 (le_n 1) Hcached1 Hr)
             as (H1 & H2 & H3).
           split; [lia|]. split; [lia|]. intros _. apply H3. lia.
        -- assert (count_key k (dispatched (on_settled k (Rejected reason) rt))
                   = (a + 1) + 0
                     + count_key k (inflight (on_settled k (Rejected reason) rt)))
             as Hacc1 by (rewrite Hdp, Hzero; lia).
           assert (0 = 1 → cachedValue
                             (state_of k (on_settled k (Rejected reason) rt))
                           ≠ None) as Hcached1 by lia.
           destruct (IH _ _ _ (a + 1) 0 Hinv1 Hacc1 Hb Hcached1 Hr)
             as (H1 & H2 & H3).
           split; [lia|]. split; [lia|]. done.
      * assert (count_key k (dispatched (on_settled k1 r rt))
                = a + b + count_key k (inflight (on_settled k1 r rt))) as Hacc1.
        { rewrite Hdp, Hfl, count_key_remove_first.
          destruct (decide (k = k1)); [done | done]. }
        assert (b = 1 → cachedValue (state_of k (on_settled k1 r rt)) ≠ None)
          as Hcached1 by (by rewrite Hoth).
        destruct (IH _ _ _ a b Hinv1 Hacc1 Hb Hcached1 Hr) as (H1 & H2 & H3).
        destruct r as [result|reason]; simpl failures_of; simpl successes_of;
          destruct (decide (k = k1)); try done;
          (repeat split; [lia | lia | done]).
Qed.

(** The fetches of a key are accounted for: since the program started, the
    fetches started for [k] are those that failed, those that succeeded
    and those in flight; at most one ever succeeds; so a key is fetched at
    most once more than its fetch has failed. *)
Theorem fetch_budget (k : Key) (evs : list Event)
    (obs : list (Key * option string)) (rt : Runtime) :
  run evs boot = Some (obs, rt) →
  count_key k (dispatched rt)
  = failures_of k evs + successes_of k evs + count_key k (inflight rt)
  ∧ successes_of k evs ≤ 1
  ∧ count_key k (dispatched rt) ≤ S (failures_of k evs).
Proof.
  intros Hrun.
  destruct (budget_run k evs boot obs rt 0 0 cache_inv_boot)
    as (Hacc & Hs & _); [done | lia | lia | done |].
  simpl in Hacc, Hs.
  assert (reachable rt) as Hreach by (by exists evs, obs).
  split; [done|]. split; [done|].
  destruct (budget_run k evs boot obs rt 0 0 cache_inv_boot)
    as (_ & _ & Hc); [done | lia | lia | done |].
  simpl in Hc.
  destruct (cache_inv_reachable _ Hreach k) as [Hcount Hv].
  destruct (successes_of k evs) as [|[|]]; [| | lia].
  - destruct (inProgress (state_of k rt)); lia.
  - rewrite Hv in Hcount by (by apply Hc). lia.
Qed.

Lemma fetch_budget_witness :
  let k := (BASE_URI, NEWS_URI) in
  let e := TransportError "ETIMEDOUT" in
  let evs := [Get k; Get k; Settle k (Rejected e); Get k;
              Settle k (Resolved "news"); Get k] in
  ∃ obs rt, run evs boot = Some (obs, rt)
            ∧ count_key k (dispatched rt) = 2
            ∧ count_key k (dispatched rt) ≤ S (failures_of k evs).
Proof.
  intros k e evs.
  destruct (run evs boot) as [[obs rt]|] eqn:Hr;
    [| vm_compute in Hr; discriminate Hr].
  exists obs, rt. split; [reflexivity|].
  destruct (fetch_budget k evs obs rt Hr) as (_ & _ & H3).
  split; [|exact H3].
  vm_compute in Hr. injection Hr as _ <-. vm_compute. reflexivity.
Defined.

(** The console counts the failures: along any sequence of turns one line
    is written per failed fetch and nothing else is written; what was
    written before stays. *)
Theorem console_counts_failures (evs : list Event) : ∀ rt obs rt',
  run evs rt = Some (obs, rt') →
  length (console rt') = length (console rt) + rejections evs
  ∧ take (length (console rt)) (console rt') = console rt.
Proof.
  induction evs as [|ev evs IH]; intros rt obs rt'; simpl run.
  - intros [= <- <-]. simpl. split; [lia | by rewrite firstn_all].
  - destruct (step ev rt) as [[o1 rt1]|] eqn:Hs; [|done].
    destruct (run evs rt1) as [[o2 rt2]|] eqn:Hr; [|done].
    intros [= <- <-]. destruct (IH _ _ _ Hr) as (Hlen & Hpre).
    destruct ev as [k1 | k1 r]; simpl in Hs.
    + destruct (cacher k1 rt) as [v1 rta] eqn:Hc. injection Hs as <- <-.
      destruct (cacher_spec k1 rt) as (_ & _ & _ & _ & _ & Hco).
      rewrite Hc in Hco. simpl in Hco. rewrite Hco in Hlen, Hpre. done.
    + destruct (decide (k1 ∈ inflight rt)); [|done]. injection Hs as <- <-.
      destruct r as [result|reason]; simpl in Hlen, Hpre; simpl rejections.
      * done.
      * rewrite length_app in Hlen, Hpre. simpl in Hlen, Hpre.
        split; [lia|].
        apply (f_equal (take (length (console rt)))) in Hpre.
        rewrite take_take in Hpre.
        rewrite Nat.min_l in Hpre by lia.
        rewrite Hpre. by rewrite take_app_length.
Qed.

Lemma console_counts_failures_witness :
  let k := (BASE_URI, STATUS_URI) in
  let e := TransportError "ECONNREFUSED" in
  ∃ obs rt, run [Get k; Settle k (Rejected e); Get k] boot = Some (obs, rt)
            ∧ length (console rt) = 1.
Proof.
  intros k e.
  destruct (run [Get k; Settle k (Rejected e); Get k] boot)
    as [[obs rt]|] eqn:Hr; [| vm_compute in Hr; discriminate Hr].
  exists obs, rt. split; [reflexivity|].
  destruct (console_counts_failures _ _ _ _ Hr) as [Hlen _]. exact Hlen.
Defined.


(** After the module is loaded, the fetch of each of the three endpoints is
    in flight: until it settles, no turn starts another fetch of that
    endpoint and its getter returns null. *)
Theorem primed_endpoints_in_flight (k : Key) (evs : list Event)
    (obs0 obs : list (Key * option string)) (rt0 rt' : Runtime) :
  primed = Some (obs0, rt0) →
  k ∈ [(BASE_URI, VERSION_URI); (BASE_URI, STATUS_URI); (BASE_URI, NEWS_URI)] →
  unsettled k evs = true →
  run evs rt0 = Some (obs, rt') →
  (∀ k' v, (k', v) ∈ obs0 → v = None)
  ∧ count_key k (dispatched rt') = 1
  ∧ count_key k (inflight rt') = 1
  ∧ (∀ v, (k, v) ∈ obs → v = None).
Proof.
  intros Hp Hk Hq Hrun.
  assert (reachable rt0) as Hreach by (eexists _, _; exact Hp).
  assert (reachable rt') as Hreach' by (by eapply reachable_run).
  vm_compute in Hp. injection Hp as Ho Hr.
  assert (cachedValue (state_of k rt0) = None
          ∧ inProgress (state_of k rt0) = true
          ∧ count_key k (dispatched rt0) = 1) as (Hcv0 & Hip & Hone).
  { rewrite <- Hr.
    repeat (apply elem_of_cons in Hk as [-> | Hk]);
      [vm_compute; done.. | by apply elem_of_nil in Hk]. }
  destruct (run_unsettled k evs _ _ _ Hrun Hq Hcv0) as (_ & Hobs & Hip' & Hd).
  rewrite Hip in Hip', Hd. simpl in Hip'.
  split.
  { intros k' v Hv. rewrite <- Ho in Hv.
    repeat (apply elem_of_cons in Hv as [Hv | Hv]);
      [congruence.. | by apply elem_of_nil in Hv]. }
  split; [lia|]. split; [|done].
  destruct (cache_inv_reachable _ Hreach' k) as [Hc _]. by rewrite Hip' in Hc.
Qed.

Lemma primed_endpoints_in_flight_witness :
  let k := (BASE_URI, STATUS_URI) in
  let kv := (BASE_URI, VERSION_URI) in
  let evs := [Get k; Get kv; Settle kv (Resolved "281.110"); Get k] in
  ∃ obs0 rt0 obs rt',
    primed = Some (obs0, rt0)
    ∧ run evs rt0 = Some (obs, rt')
    ∧ count_key k (dispatched rt') = 1
    ∧ (∀ v, (k, v) ∈ obs → v = None).
Proof.
  intros k kv evs.
  destruct primed as [[obs0 rt0]|] eqn:Hp; [| vm_compute in Hp; discriminate Hp].
  destruct (run evs rt0) as [[obs rt']|] eqn:Hr.
  - exists obs0, rt0, obs, rt'. split; [reflexivity|]. split; [exact Hr|].
    destruct (primed_endpoints_in_flight k evs obs0 obs rt0 rt')
      as (_ & H1 & _ & H2).
    + exact Hp.
    + right. left.
    + vm_compute. reflexivity.
    + exact Hr.
    + split; [exact H1 | exact H2].
  - exfalso. vm_compute in Hp. injection Hp as _ <-.
    vm_compute in Hr. discriminate Hr.
Defined.

(** ** The parser of the server list *)

Lemma split_lines_head_LF s' :
  split_lines (String LF s') = EmptyString :: split_lines s'.
Proof. reflexivity. Qed.

Lemma split_lines_lines s :
  Forall (fun l => contains_char is_LF l = false) (split_lines s)
  ∧ length (split_lines s) = S (count_char is_LF s).
Proof.
  induction s as [|c s [IHf IHl]]; [by repeat constructor|].
  simpl split_lines. simpl count_char. unfold is_LF at 2.
  destruct (Ascii.eqb c LF) eqn:Hc.
  - split; [by constructor | simpl; by rewrite IHl].
  - destruct s as [|c' s'].
    + split; [|done]. repeat constructor. simpl. unfold is_LF. by rewrite Hc.
    + destruct (Ascii.eqb c CR && Ascii.eqb c' LF) eqn:Hcr.
      * apply andb_true_iff in Hcr as [_ Hlf].
        apply Ascii.eqb_eq in Hlf as ->.
        rewrite split_lines_head_LF in IHf, IHl. split.
        -- constructor; [done|]. by inversion IHf.
        -- simpl in IHl. simpl. lia.
      * destruct (split_lines (String c' s')) as [|l ls]; [done|].
        split.
        -- inversion IHf as [|? ? Hl Hls]; subst.
           constructor; [|done]. simpl. unfold is_LF at 1. by rewrite Hc, Hl.
        -- simpl in IHl. simpl. lia.
Qed.

Lemma first_token_clean line :
  contains_char is_space (first_token line) = false.
Proof.
  induction line as [|c line IH]; [done|]. simpl.
  destruct (is_space c) eqn:Hc; [done|]. simpl. by rewrite Hc, IH.
Qed.

Lemma first_token_prefix line : String.prefix (first_token line) line = true.
Proof.
  induction line as [|c line IH]; [done|]. simpl.
  destruct (is_space c); [done|]. simpl.
  destruct (ascii_dec c c); [done | done].
Qed.

Lemma first_token_id line :
  contains_char is_space line = false → first_token line = line.
Proof.
  induction line as [|c line IH]; [done|]. simpl.
  intros H. apply orb_false_iff in H as [Hc Hl]. by rewrite Hc, IH.
Qed.

(** What the parser makes of any server list: one IP per line, as many as
    there are line feeds plus one (so never none); no IP contains white
    space or a line break; each is the start of its line, and is the whole
    line when the line has no white space. *)
Theorem parsed_ips (serverList : string) :
  let ips := List.map first_token (split_lines serverList) in
  length ips = S (count_char is_LF serverList)
  ∧ Forall (fun ip => contains_char is_space ip = false) ips
  ∧ Forall2 (fun ip line => String.prefix ip line = true
                            ∧ (contains_char is_space line = false → ip = line))
            ips (split_lines serverList).
Proof.
  intros ips. unfold ips.
  destruct (split_lines_lines serverList) as [_ Hlen].
  split; [by rewrite length_map|]. split.
  - apply Forall_forall. intros ip Hip.
    apply list_elem_of_In, in_map_iff in Hip as (line & <- & _).
    apply first_token_clean.
  - generalize (split_lines serverList) as ls.
    induction ls as [|l ls IH]; simpl; constructor; [|done].
    split; [apply first_token_prefix | apply first_token_id].
Qed.

Lemma count_char_app p s1 s2 :
  count_char p (s1 +:+ s2) = count_char p s1 + count_char p s2.
Proof. induction s1 as [|c s1 IH]; simpl; [done | rewrite IH; lia]. Qed.

Lemma last_cons_ne {A} (x : A) l : l ≠ [] → last (x :: l) = last l.
Proof. by destruct l. Qed.

(** A list that ends with a line feed has an empty last line. *)
Lemma split_lines_trailing s :
  last (split_lines (s +:+ String LF EmptyString)) = Some EmptyString.
Proof.
  induction s as [|c s IH]; [done|].
  change (String c s +:+ String LF EmptyString)
    with (String c (s +:+ String LF EmptyString)).
  remember (s +:+ String LF EmptyString) as t eqn:Ht.
  assert (2 ≤ length (split_lines t)) as Hlen.
  { destruct (split_lines_lines t) as [_ ->]. rewrite Ht, count_char_app.
    change (count_char is_LF (String LF EmptyString)) with 1. lia. }
  simpl split_lines. destruct (Ascii.eqb c LF).
  - rewrite last_cons_ne; [done | apply split_lines_not_nil].
  - destruct t as [|c' s'']; [by destruct s|].
    destruct (Ascii.eqb c CR && Ascii.eqb c' LF) eqn:Hcr.
    + apply andb_true_iff in Hcr as [_ Hlf]. apply Ascii.eqb_eq in Hlf as ->.
      rewrite split_lines_head_LF in IH.
      rewrite last_cons_ne in IH by apply split_lines_not_nil.
      rewrite last_cons_ne; [done | apply split_lines_not_nil].
    + destruct (split_lines (String c' s'')) as [|l [|l' ls]];
        [done | simpl in Hlen; lia |].
      rewrite last_cons_ne in IH by done.
      by rewrite last_cons_ne.
Qed.

(** ** The server directory *)

(** A blank last line is an IP like any other. When the fetched list ends
    with a line feed, the empty string is among the hosts, and a query of
    the empty host is issued for every port. *)
Theorem trailing_newline_queries_empty_host (w : World)
    (ports : option (list Z)) (log : list Effect) (s : string) (port : Z) :
  http_get w (length log) (BASE_URI +:+ SERVER_LIST_URI)
  = Resolved (s +:+ String LF EmptyString) →
  port ∈ default PORT_LIST ports →
  GamedigQuery (queryForHost EmptyString port)
  ∈ (getServerList w None ports log).2.
Proof.
  intros Hh Hport. rewrite (getServerList_default w ports log _ Hh). simpl.
  apply elem_of_app. right. right.
  apply list_elem_of_In, in_map, list_elem_of_In, buildTargets_elem_of.
  exists EmptyString, port. split; [|done].
  pose proof (split_lines_trailing s) as Hlast.
  apply last_Some_elem_of in Hlast.
  apply list_elem_of_In. apply list_elem_of_In in Hlast.
  change EmptyString with (first_token EmptyString). by apply in_map.
Qed.

Lemma trailing_newline_queries_empty_host_witness :
  let w := {| http_get := fun _ _ => Resolved ("10.0.0.1" +:+ String LF EmptyString);
              gamedig := gamedig fleet |} in
  GamedigQuery (queryForHost EmptyString 27021%Z)
  ∈ (getServerList w None None []).2.
Proof.
  intros w.
  apply (trailing_newline_queries_empty_host w None [] "10.0.0.1" 27021%Z).
  - reflexivity.
  - vm_compute. do 3 right. left.
Defined.

Lemma buildTargets_no_ports ips : buildTargets ips [] = [].
Proof. unfold buildTargets. induction ips as [|ip ips IH]; simpl; done. Qed.

(** An empty list of ports is accepted: with a list of IPs that is not
    empty, [getServerList] resolves with the empty list and issues no
    call at all. *)
Theorem empty_port_list (w : World) (ips : list string) (log : list Effect) :
  ips ≠ [] →
  getServerList w (Some ips) (Some []) log = (Resolved [], log).
Proof.
  intros Hne. destruct ips as [|ip ips]; [done|].
  rewrite getServerList_explicit. simpl default.
  rewrite buildTargets_no_ports. simpl. by rewrite app_nil_r.
Qed.

Lemma empty_port_list_witness :
  getServerList fleet (Some ["10.0.0.1"; "10.0.0.2"]) (Some []) []
  = (Resolved [], []).
Proof. apply (empty_port_list fleet ["10.0.0.1"; "10.0.0.2"] []). discriminate. Defined.

Lemma count_fetches_app l1 l2 :
  count_fetches (l1 ++ l2) = count_fetches l1 + count_fetches l2.
Proof.
  induction l1 as [|[uri|q] l1 IH]; simpl; [done | by rewrite IH | done].
Qed.

Lemma count_fetches_queries T : count_fetches (List.map GamedigQuery T) = 0.
Proof. induction T as [|q T IH]; simpl; done. Qed.

Lemma module_effect_targets ips ports :
  forallb module_effect (List.map GamedigQuery (buildTargets ips ports)) = true.
Proof.
  apply forallb_forall. intros e He.
  apply in_map_iff in He as (q & <- & Hq).
  apply list_elem_of_In, buildTargets_elem_of in Hq as (ip & port & _ & _ & ->).
  simpl. by apply bool_decide_eq_true.
Qed.

(** With an explicit list of IPs the server-list endpoint is never
    contacted: exactly one query per pair of an IP and a port is issued,
    in the order of the product, nothing else; and there are never more
    records than pairs. *)
Theorem explicit_ips_cost (w : World) (ips : list string)
    (ports : option (list Z)) (log : list Effect) :
  ips ≠ [] →
  ∃ rs added,
    getServerList w (Some ips) ports log = (Resolved rs, log ++ added)
    ∧ added = List.map GamedigQuery (buildTargets ips (default PORT_LIST ports))
    ∧ length added = length ips * length (default PORT_LIST ports)
    ∧ count_fetches added = 0
    ∧ length rs ≤ length ips * length (default PORT_LIST ports).
Proof.
  intros Hne. destruct ips as [|ip ips]; [done|].
  eexists _, _. split; [apply getServerList_explicit|].
  split; [done|]. rewrite length_map, buildTargets_length.
  split; [done|]. split; [apply count_fetches_queries|].
  etrans; [apply successes_length|]. by rewrite buildTargets_length.
Qed.

Lemma explicit_ips_cost_witness :
  ∃ rs added,
    getServerList fleet (Some ["10.0.0.1"; "10.0.0.2"]) None []
    = (Resolved rs, [] ++ added)
    ∧ length added = 8.
Proof.
  destruct (explicit_ips_cost fleet ["10.0.0.1"; "10.0.0.2"] None [])
    as (rs & added & H1 & _ & H2 & _); [discriminate|].
  exists rs, added. split; [exact H1 | exact H2].
Defined.

(** What one round adds to the log: only calls of the module's two kinds,
    and one fetch exactly when no list of IPs was given. *)
Lemma getServerList_added w serverIPs ports log :
  ∃ added,
    (getServerList w serverIPs ports log).2 = log ++ added
    ∧ forallb module_effect added = true
    ∧ count_fetches added = match serverIPs with Some _ => 0 | None => 1 end.
Proof.
  destruct serverIPs as [[|ip ips]|].
  - exists []. rewrite (getServerList_no_queries w (Some []) ports log [] log
                          (TypeError "Reduce of empty array with no initial value"));
      [|done|done].
    simpl. by rewrite app_nil_r.
  - eexists. rewrite getServerList_explicit. cbn [snd].
    split; [done|]. split; [apply module_effect_targets|].
    apply count_fetches_queries.
  - rewrite getServerList_fetched.
    destruct (http_get w (length log) (BASE_URI +:+ SERVER_LIST_URI))
      as [serverList|e].
    + destruct (split_lines serverList) as [|l ls] eqn:Hs;
        [by apply split_lines_not_nil in Hs|].
      simpl List.map. rewrite getServerList_explicit. cbn [snd].
      eexists. rewrite <- app_assoc. split; [done|]. split.
      * cbn [app forallb]. rewrite module_effect_targets.
        unfold module_effect. by rewrite String.eqb_refl.
      * cbn [app count_fetches]. by rewrite count_fetches_queries.
    + exists [HttpGet (BASE_URI +:+ SERVER_LIST_URI)]. done.
Qed.

Lemma getServerList_from_queries w serverIPs ports log rs log' r :
  getServerList w serverIPs ports log = (Resolved rs, log') →
  r ∈ rs →
  ∃ t q, record_at w t q = Resolved r.
Proof.
  destruct serverIPs as [[|ip ips]|].
  - by rewrite (getServerList_no_queries w (Some []) ports log [] log
                  (TypeError "Reduce of empty array with no initial value")).
  - rewrite getServerList_explicit. intros [= <- <-] Hr.
    apply successes_elem_of in Hr as (i & q & _ & Hrec). eauto.
  - rewrite getServerList_fetched.
    destruct (http_get w (length log) (BASE_URI +:+ SERVER_LIST_URI))
      as [serverList|e]; [|done].
    destruct (split_lines serverList) as [|l ls] eqn:Hs;
      [by apply split_lines_not_nil in Hs|].
    simpl List.map. rewrite getServerList_explicit. intros [= <- <-] Hr.
    apply successes_elem_of in Hr as (i & q & _ & Hrec). eauto.
Qed.

(** ** The resolver *)

Lemma first_stage_match_added w serverName stages : ∀ log,
  ∃ added,
    (first_stage_match w serverName stages log).2 = log ++ added
    ∧ forallb module_effect added = true
    ∧ count_fetches added
      ≤ length (List.filter
                  (fun st => bool_decide ((stage_args st).1 = None)) stages).
Proof.
  induction stages as [|st stages IH]; intros log.
  - exists []. simpl. by rewrite app_nil_r.
  - rewrite first_stage_match_cons.
    destruct (getServerList_added w (stage_args st).1 (stage_args st).2 log)
      as (add1 & H1 & H2 & H3).
    assert (count_fetches add1
            ≤ length (List.filter
                        (fun st => bool_decide ((stage_args st).1 = None))
                        [st])) as Hone.
    { rewrite H3. simpl. destruct ((stage_args st).1); simpl; lia. }
    assert (length (List.filter
                      (fun st => bool_decide ((stage_args st).1 = None))
                      (st :: stages))
            = length (List.filter
                        (fun st => bool_decide ((stage_args st).1 = None)) [st])
              + length (List.filter
                          (fun st => bool_decide ((stage_args st).1 = None))
                          stages)) as ->.
    { simpl. destruct (bool_decide ((stage_args st).1 = None)); simpl; lia. }
    destruct (getServerList w (stage_args st).1 (stage_args st).2 log)
      as [[l|e] log'] eqn:Hround; simpl in H1.
    + destruct (first_named serverName l).
      * exists add1. cbn [snd]. split; [done|]. split; [done|]. lia.
      * destruct (IH log') as (add2 & G1 & G2 & G3).
        exists (add1 ++ add2). rewrite G1, H1, <- app_assoc.
        split; [done|]. split.
        -- rewrite forallb_app. by rewrite H2, G2.
        -- rewrite count_fetches_app. lia.
    + exists add1. cbn [snd]. split; [done|]. split; [done|]. lia.
Qed.

Lemma stages_of_fetching opts :
  length (List.filter (fun st => bool_decide ((stage_args st).1 = None))
            (stages_of opts)) ≤ 2
  ∧ (to_boolean (host opts) = true → fallback opts = false →
     length (List.filter (fun st => bool_decide ((stage_args st).1 = None))
               (stages_of opts)) = 0).
Proof.
  destruct opts as [[h|] [p|] fb]; unfold stages_of, hint_list; simpl;
    rewrite ?to_boolean_Some, ?to_boolean_None;
    try destruct (to_boolean h); try destruct (to_boolean p);
    destruct fb; simpl; split; try lia; try done.
Qed.

(** What a call of the resolver costs and touches. It only adds to the log;
    what it adds are fetches of the server-list URI and queries of the
    shape [queryForHost] builds, nothing else; the server list is fetched
    at most twice; and with a host hint and no fallback it is not fetched
    at all. *)
Theorem resolver_calls (w : World) (serverName : string) (opts : Options)
    (log : list Effect) :
  ∃ added,
    (getServerInfo w serverName opts log).2 = log ++ added
    ∧ forallb module_effect added = true
    ∧ count_fetches added ≤ 2
    ∧ (to_boolean (host opts) = true → fallback opts = false →
       count_fetches added = 0).
Proof.
  rewrite getServerInfo_stages.
  destruct (first_stage_match_added w serverName (stages_of opts) log)
    as (added & H1 & H2 & H3).
  destruct (stages_of_fetching opts) as [Hle Hzero].
  exists added. split; [done|]. split; [done|]. split; [lia|].
  intros Hh Hfb. specialize (Hzero Hh Hfb). lia.
Qed.

Lemma first_stage_match_sound w serverName stages : ∀ log r,
  (first_stage_match w serverName stages log).1 = Resolved (Some r) →
  name r = Some serverName ∧ ∃ t q, record_at w t q = Resolved r.
Proof.
  induction stages as [|st stages IH]; intros log r; [done|].
  rewrite first_stage_match_cons.
  destruct (getServerList w (stage_args st).1 (stage_args st).2 log)
    as [[l|e] log'] eqn:Hround; [|done].
  destruct (first_named serverName l) as [r'|] eqn:Hfirst; [|apply IH].
  simpl. intros [= ->].
  apply first_named_Some in Hfirst as [Hin Hn]. split; [done|].
  by eapply getServerList_from_queries.
Qed.

(** The resolver never answers with a wrong server: a record it resolves
    with has the requested name and was made by the constructor from the
    answer of a Gamedig query. *)
Theorem resolver_sound (w : World) (serverName : string) (opts : Options)
    (log : list Effect) (r : ArkServerInfo) :
  (getServerInfo w serverName opts log).1 = Resolved (Some r) →
  name r = Some serverName
  ∧ ∃ t q gd, (gamedig w t q).2 = Resolved gd
              ∧ ArkServerInfo_new gd = Resolved r.
Proof.
  rewrite getServerInfo_stages. intros Hres.
  apply first_stage_match_sound in Hres as (Hn & t & q & Hrec).
  split; [done|]. unfold record_at in Hrec.
  destruct ((gamedig w t q).2) as [gd|e] eqn:Hg; [|done].
  by exists t, q, gd.
Qed.

Lemma resolver_sound_witness :
  ∃ r, (getServerInfo fleet "Srv-B" no_options []).1 = Resolved (Some r)
       ∧ name r = Some "Srv-B".
Proof.
  destruct (getServerInfo fleet "Srv-B" no_options []).1 as [[r|]|e] eqn:Hr;
    [| vm_compute in Hr; discriminate Hr..].
  exists r. split; [reflexivity|].
  destruct (resolver_sound fleet "Srv-B" no_options [] r Hr) as [Hn _].
  exact Hn.
Defined.

(** With fallback off the resolver makes one round, whatever the hints:
    the hinted round, whose first record of the requested name it returns,
    or null. *)
Theorem no_fallback_single_round (w : World) (serverName : string)
    (h : option string) (p : option Z) (log : list Effect) :
  getServerInfo w serverName {| host := h; port := p; fallback := false |} log
  = match getServerList w (hint_list h) (hint_list p) log with
    | (Resolved l, log') => (Resolved (first_named serverName l), log')
    | (Rejected e, log') => (Rejected e, log')
    end.
Proof.
  rewrite getServerInfo_stages.
  assert (stages_of {| host := h; port := p; fallback := false |}
          = [Hinted (hint_list h) (hint_list p)]) as ->.
  { unfold stages_of. simpl. by destruct h, p. }
  rewrite first_stage_match_cons. simpl.
  destruct (getServerList w (hint_list h) (hint_list p) log) as [[l|e] log'];
    [|done].
  by destruct (first_named serverName l).
Qed.

(** A good hint costs one query. With both hints given, when the hinted
    host answers at the hinted port with a record of the requested name,
    the resolver returns it after that single query, without fetching the
    server list, whatever the fallback flag. *)
Theorem hint_hit (w : World) (serverName : string) (h : string) (p : Z)
    (fb : bool) (log : list Effect) (r : ArkServerInfo) :
  to_boolean h = true →
  to_boolean p = true →
  record_at w (length log) (queryForHost h p) = Resolved r →
  name r = Some serverName →
  getServerInfo w serverName {| host := Some h; port := Some p; fallback := fb |}
    log
  = (Resolved (Some r), log ++ [GamedigQuery (queryForHost h p)]).
Proof.
  intros Hh Hp Hrec Hn.
  rewrite getServerInfo_stages, (stages_of_both h p fb Hh Hp).
  rewrite first_stage_match_cons. cbn [stage_args fst snd].
  rewrite getServerList_explicit.
  change (buildTargets [h] (default PORT_LIST (Some [p])))
    with [queryForHost h p].
  cbn [successes List.map]. rewrite Hrec.
  unfold first_named. cbn [List.filter]. apply name_is_true in Hn.
  by rewrite Hn.
Qed.

Lemma hint_hit_witness :
  ∃ r, getServerInfo fleet "Srv-A"
         {| host := Some "10.0.0.2"; port := Some 27017%Z; fallback := true |} []
       = (Resolved (Some r),
          [GamedigQuery (queryForHost "10.0.0.2" 27017%Z)])
       ∧ name r = Some "Srv-A".
Proof.
  destruct (record_at fleet 0 (queryForHost "10.0.0.2" 27017%Z))
    as [r|e] eqn:Hrec; [| vm_compute in Hrec; discriminate Hrec].
  assert (name r = Some "Srv-A") as Hn.
  { vm_compute in Hrec. injection Hrec as <-. reflexivity. }
  exists r. split; [|exact Hn].
  apply (hint_hit fleet "Srv-A" "10.0.0.2" 27017%Z true [] r).
  - reflexivity.
  - reflexivity.
  - exact Hrec.
  - exact Hn.
Defined.

(** ** The record constructor *)

Lemma substring_all s : String.substring 0 (String.length s) s = s.
Proof. induction s as [|c s IH]; simpl; [done | by rewrite IH]. Qed.

Lemma prefix_decompose p : ∀ s,
  String.prefix p s = true →
  s = p +:+ String.substring (String.length p)
              (String.length s - String.length p) s.
Proof.
  induction p as [|a p IH]; intros s.
  - intros _. simpl. by rewrite Nat.sub_0_r, substring_all.
  - destruct s as [|b s]; simpl; [done|].
    destruct (ascii_dec a b) as [->|]; [|done].
    intros Hp. rewrite (IH s Hp) at 1. reflexivity.
Qed.

Lemma prefix_app_r p : ∀ s x,
  String.prefix p s = true → String.prefix p (s +:+ x) = true.
Proof.
  induction p as [|a p IH]; intros s x.
  - intros _. by destruct (s +:+ x).
  - destruct s as [|b s]; simpl; [done|].
    destruct (ascii_dec a b); [apply IH | done].
Qed.

Lemma split_once_eq sep s :
  split_once sep s
  = if String.prefix sep s
    then Some (EmptyString,
               String.substring (String.length sep)
                 (String.length s - String.length sep) s)
    else match s with
         | EmptyString => None
         | String c s' =>
             match split_once sep s' with
             | Some (a, b) => Some (String c a, b)
             | None => None
             end
         end.
Proof. by destruct s. Qed.

Lemma split_once_join sep s : ∀ a b,
  split_once sep s = Some (a, b) → s = a +:+ sep +:+ b.
Proof.
  induction s as [|c s IH]; intros a b; rewrite split_once_eq;
    destruct (String.prefix sep _) eqn:Hp.
  - intros [= <- <-]. by apply prefix_decompose.
  - done.
  - intros [= <- <-]. by apply prefix_decompose.
  - destruct (split_once sep s) as [[a' b']|]; [|done].
    intros [= <- <-]. rewrite (IH a' b' eq_refl) at 1. reflexivity.
Qed.

Lemma occurs_eq sep s :
  occurs sep s
  = String.prefix sep s
    || match s with
       | EmptyString => false
       | String _ s' => occurs sep s'
       end.
Proof. by destruct s. Qed.

Lemma split_once_first sep s : ∀ a b,
  sep ≠ EmptyString →
  split_once sep s = Some (a, b) → occurs sep a = false.
Proof.
  intros a b Hsep. revert a b.
  assert (occurs sep EmptyString = false) as Hempty.
  { destruct sep; [done|]. reflexivity. }
  induction s as [|c s IH]; intros a b; rewrite split_once_eq;
    destruct (String.prefix sep _) eqn:Hp.
  - by intros [= <- <-].
  - done.
  - by intros [= <- <-].
  - destruct (split_once sep s) as [[a' b']|] eqn:Hs; [|done].
    intros [= <- <-]. rewrite occurs_eq, (IH a' b' eq_refl), orb_false_r.
    destruct (String.prefix sep (String c a')) eqn:Hpa; [|done].
    apply (prefix_app_r _ _ (sep +:+ b')) in Hpa.
    apply split_once_join in Hs.
    change (String c a' +:+ sep +:+ b') with (String c (a' +:+ sep +:+ b'))
      in Hpa.
    rewrite <- Hs in Hpa. congruence.
Qed.

Lemma split_once_None sep s :
  split_once sep s = None ↔ occurs sep s = false.
Proof.
  induction s as [|c s IH]; rewrite split_once_eq, occurs_eq;
    destruct (String.prefix sep _) eqn:Hp; cbn [orb].
  - split; done.
  - split; done.
  - split; done.
  - destruct (split_once sep s) as [[a b]|].
    + split; [done|]. intros Ho. by apply IH in Ho.
    + split; [|done]. intros _. by apply IH.
Qed.

Lemma named_players_named l :
  Forall (fun p => gp_name p ≠ EmptyString) (named_players l)
  ∧ length (named_players l) ≤ length l.
Proof.
  induction l as [|[p|] l [IHf IHl]]; simpl.
  - by split.
  - unfold to_boolean, string_to_boolean.
    destruct (String.eqb (gp_name p) EmptyString) eqn:He; simpl.
    + split; [done | lia].
    + apply String.eqb_neq in He. split; [by constructor | lia].
  - split; [done | lia].
Qed.

(** The name of a record never contains the separator. *)
Lemma ArkServerInfo_new_name gd r n :
  ArkServerInfo_new gd = Resolved r → name r = Some n →
  occurs " - " n = false
  ∧ ∃ rest, gd_name gd = n +:+ " - " +:+ rest.
Proof.
  unfold ArkServerInfo_new.
  destruct (to_boolean (gd_name gd)); [|by intros [= <-]].
  destruct (split_once " - " (gd_name gd)) as [[a b]|] eqn:Hs; [|done].
  intros [= <-]. simpl. intros [= <-]. split.
  - by apply (split_once_first " - " (gd_name gd) a b).
  - exists b. by apply split_once_join.
Qed.


(** A name with [' - '] in it is never found: the resolver compares the
    requested name with record names, and those are cut before the first
    [' - ']. Asking for the raw Gamedig name of a server gets null. *)
Theorem separator_names_never_found (w : World) (serverName : string)
    (opts : Options) (log : list Effect) (r : ArkServerInfo) :
  occurs " - " serverName = true →
  (getServerInfo w serverName opts log).1 ≠ Resolved (Some r).
Proof.
  intros Hocc Hres. rewrite getServerInfo_stages in Hres.
  apply first_stage_match_sound in Hres as (Hn & t & q & Hrec).
  unfold record_at in Hrec.
  destruct ((gamedig w t q).2) as [gd|e]; [|done].
  destruct (ArkServerInfo_new_name gd r serverName Hrec Hn) as [Ho _].
  congruence.
Qed.

Lemma separator_names_never_found_witness :
  (getServerInfo fleet "Srv-A - (v281.110)" no_options []).1 = Resolved None.
Proof.
  destruct (getServerInfo fleet "Srv-A - (v281.110)" no_options []).1
    as [[r|]|e] eqn:Hr.
  - exfalso.
    apply (separator_names_never_found fleet "Srv-A - (v281.110)"
             no_options [] r); [reflexivity | exact Hr].
  - reflexivity.
  - vm_compute in Hr. discriminate Hr.
Defined.

(** ** The earlier directory and the current one *)

Lemma legacy_dispatch_all w T : ∀ log,
  ∃ ps vs,
    async_map (fun query => gamedigQuery w query) T log
    = (Resolved ps, log ++ List.map GamedigQuery T)
    ∧ List.map fate (List.map (fun qpromise => promise_catch_null qpromise) ps)
      = List.map Resolved vs
    ∧ filter_not_null vs = raw_successes w (length log) T.
Proof.
  induction T as [|q T IH]; intros log.
  - exists [], []. simpl. unfold async_ret. by rewrite app_nil_r.
  - destruct (IH (log ++ [GamedigQuery q])) as (ps & vs & Hrun & Hf & Hs).
    rewrite length_app, Nat.add_1_r in Hs. cbn [length] in Hs.
    simpl async_map. unfold async_bind at 1. unfold gamedigQuery at 1.
    simpl raw_successes.
    destruct (gamedig w (length log) q) as [t [gd|e]] eqn:Hg;
      unfold async_bind at 1; rewrite Hrun; unfold async_ret;
      rewrite <- app_assoc.
    + exists ({| settles_at := t; fate := Resolved gd |} :: ps), (Some gd :: vs).
      simpl. by rewrite Hf, Hs.
    + exists ({| settles_at := t; fate := Rejected e |} :: ps), (None :: vs).
      simpl. by rewrite Hf, Hs.
Qed.

Lemma successes_shaped w T : ∀ t,
  successes w t T = omap shaped (raw_successes w t T).
Proof.
  induction T as [|q T IH]; intros t; [done|].
  simpl. unfold record_at.
  destruct ((gamedig w t q).2) as [gd|e]; [|apply IH].
  cbn [omap list_omap]. unfold shaped at 1.
  destruct (ArkServerInfo_new gd); by rewrite IH.
Qed.

(** The earlier [getServerList()] and the current one called without
    arguments make the same calls and reject together, with the same
    error; when they resolve, the current result is the earlier one with
    each raw answer shaped by the constructor, the answers it throws on
    left out. *)
Theorem legacy_agrees (w : World) (log : list Effect) :
  match legacy_getServerList w log, getServerList w None None log with
  | (Resolved raws, l1), (Resolved rs, l2) => l1 = l2 ∧ rs = omap shaped raws
  | (Rejected e1, l1), (Rejected e2, l2) => e1 = e2 ∧ l1 = l2
  | _, _ => False
  end.
Proof.
  rewrite getServerList_fetched.
  unfold legacy_getServerList, legacy_getServerPromises.
  unfold async_bind at 1. unfold async_bind at 1. unfold fetchUri at 1.
  destruct (http_get w (length log) (BASE_URI +:+ SERVER_LIST_URI))
    as [serverList|e]; [|done].
  destruct (split_lines serverList) as [|l ls] eqn:Hs;
    [by apply split_lines_not_nil in Hs|].
  simpl List.map. rewrite getServerList_explicit.
  change (reduce (fun acc val => acc ++ val) _)
    with (serverQueries (first_token l :: List.map first_token ls) None).
  rewrite serverQueries_cons. unfold async_bind at 1. unfold await at 1.
  destruct (legacy_dispatch_all w
              (buildTargets (first_token l :: List.map first_token ls)
                 (default PORT_LIST None))
              (log ++ [HttpGet (BASE_URI +:+ SERVER_LIST_URI)]))
    as (ps & vs & -> & Hf & Hsucc).
  unfold async_bind, await. rewrite (Promise_all_resolved _ vs Hf).
  unfold async_ret. rewrite Hsucc. split; [done|].
  apply successes_shaped.
Qed.


(** ** The documented format of raw names *)

Lemma substring_skip p r :
  String.substring (String.length p)
    (String.length (p +:+ r) - String.length p) (p +:+ r) = r.
Proof.
  induction p as [|a p IH]; simpl.
  - by rewrite Nat.sub_0_r, substring_all.
  - exact IH.
Qed.

Lemma prefix_head_ne a p b s :
  a ≠ b → String.prefix (String a p) (String b s) = false.
Proof.
  intros Hne.
  change (String.prefix (String a p) (String b s))
    with (if ascii_dec a b then String.prefix p s else false).
  by destruct (ascii_dec a b).
Qed.

Lemma prefix_self_app p r : String.prefix p (p +:+ r) = true.
Proof.
  induction p as [|a p IH]; simpl; [by destruct r|].
  by destruct (ascii_dec a a).
Qed.

Lemma split_once_no_blank n rest :
  contains_char is_blank n = false →
  split_once " - " (n +:+ " - " +:+ rest) = Some (n, rest).
Proof.
  induction n as [|c n IH]; intros Hn.
  - rewrite split_once_eq.
    change (EmptyString +:+ " - " +:+ rest) with (" - " +:+ rest).
    rewrite prefix_self_app. f_equal. f_equal.
    apply (substring_skip " - " rest).
  - simpl in Hn. apply orb_false_iff in Hn as [Hc Hn].
    rewrite split_once_eq.
    change (String c n +:+ " - " +:+ rest)
      with (String c (n +:+ " - " +:+ rest)).
    assert (String.prefix " - " (String c (n +:+ " - " +:+ rest)) = false)
      as ->.
    { apply prefix_head_ne. intros <-. vm_compute in Hc. discriminate Hc. }
    by rewrite (IH Hn).
Qed.

Lemma split_once_absent sep s :
  occurs sep s = false → split_once sep s = None.
Proof. apply split_once_None. Qed.

Lemma occurs_no_blank s :
  contains_char is_blank s = false → occurs " - " s = false.
Proof.
  induction s as [|c s IH]; [done|]. simpl contains_char.
  intros H. apply orb_false_iff in H as [Hc Hs].
  rewrite occurs_eq, (IH Hs), orb_false_r.
  apply prefix_head_ne. intros <-. vm_compute in Hc. discriminate Hc.
Qed.

Lemma contains_char_app p s1 s2 :
  contains_char p (s1 +:+ s2) = contains_char p s1 || contains_char p s2.
Proof.
  induction s1 as [|c s1 IH]; [done|].
  change (String c s1 +:+ s2) with (String c (s1 +:+ s2)).
  cbn [contains_char]. by rewrite IH, orb_assoc.
Qed.

Lemma until_brace_clean s :
  contains_char is_brace s = false → until_brace s = (s, EmptyString).
Proof.
  induction s as [|c s IH]; [done|]. cbn [contains_char until_brace].
  intros H. apply orb_false_iff in H as [Hc H]. unfold is_brace in Hc.
  by rewrite Hc, (IH H).
Qed.

Lemma last_close_end s : last_close (s +:+ ")") = Some (s, EmptyString).
Proof.
  induction s as [|c s IH]; [done|].
  change (String c s +:+ ")") with (String c (s +:+ ")")).
  cbn [last_close]. by rewrite IH.
Qed.

Lemma strip_version_eq s :
  strip_version s
  = match version_match s with
    | Some (group, after) => group +:+ after
    | None =>
        match s with
        | EmptyString => EmptyString
        | String c s' => String c (strip_version s')
        end
    end.
Proof. by destruct s. Qed.

Lemma append_empty_r s : s +:+ EmptyString = s.
Proof.
  induction s as [|c s IH]; [done|].
  change (String c s +:+ EmptyString) with (String c (s +:+ EmptyString)).
  by rewrite IH.
Qed.

Lemma strip_version_wrapped v :
  v ≠ EmptyString →
  contains_char is_brace v = false →
  strip_version ("(v" +:+ v +:+ ")") = v.
Proof.
  intros Hne Hb.
  change ("(v" +:+ v +:+ ")") with (String "(" (String "v" (v +:+ ")"))).
  rewrite strip_version_eq.
  assert (version_match (String "(" (String "v" (v +:+ ")")))
          = Some (v, EmptyString)) as ->.
  { unfold version_match.
    change (Ascii.eqb "(" "(" && Ascii.eqb "v" "v") with true. cbn iota.
    rewrite until_brace_clean by (by rewrite contains_char_app, Hb).
    rewrite last_close_end. by destruct v. }
  apply append_empty_r.
Qed.


